(** * flask-restful-fieldsets: field selection and marshalling

    A shallow embedding of [flask_restful_fieldsets/fields.py] and
    [flask_restful_fieldsets/fieldset.py]: the selection parser, the field
    declarations, the fieldset schema and its render plans, the marshalling
    wrapper, and the metaclass that discovers the fields of a class and
    composes its Meta.

    Python sets of strings are [gset string]; the [_fields] dictionary of a
    fieldset and the render plan are association lists in definition order;
    [defaultdict(set)] is a [gmap string (gset string)] read with a default.
    Code that can raise returns a [result]. *)

From Stdlib Require Import Ascii String ZArith Sorted.
From Stdlib Require OrdersEx.
From stdpp Require Import base option list gmap sets strings sorting.

Set Warnings "-register-all,-clear-no-such-hyp".
Local Open Scope Z_scope.

(** ** Values and exceptions *)

(** The Python values that flow through the marshaller.  [VObj] is an object
    with data attributes (read with [getattr]); [VDict] is a mapping (read
    with [obj[key]]), also the shape of the marshalled output.  Methods of
    built-in types (such as [str.upper]) are not attributes in this model. *)
Inductive pyval : Type :=
| VNone
| VInt (z : Z)
| VStr (s : string)
| VList (items : list pyval)
| VDict (entries : list (string * pyval))
| VObj (attrs : list (string * pyval)).

Inductive exn : Type :=
| ValueError (msg : string)
| AttributeError
| MarshallingException
| BadRequest (msg : string).

Inductive result (A : Type) : Type :=
| Ok (a : A)
| Err (e : exn).
Arguments Ok {A} a.
Arguments Err {A} e.

#[global] Instance result_ret : MRet result := fun A a => Ok a.
#[global] Instance result_bind : MBind result := fun A B k r =>
  match r with
  | Ok a => k a
  | Err e => Err e
  end.
#[global] Instance result_fmap : FMap result := fun A B f r =>
  match r with
  | Ok a => Ok (f a)
  | Err e => Err e
  end.

(** Association-list lookup: first binding of the key. *)
Fixpoint assoc {A} (k : string) (l : list (string * A)) : option A :=
  match l with
  | [] => None
  | (k', a) :: l' => if String.eqb k k' then Some a else assoc k l'
  end.

(** ** String primitives of the Python runtime *)

(** [c in s] for a one-character [c]. *)
Fixpoint contains (c : ascii) (s : string) : bool :=
  match s with
  | EmptyString => false
  | String a s' => if Ascii.eqb a c then true else contains c s'
  end.

(** [s.split(c)]: every separator ends a token, so the result always has at
    least one element. *)
Fixpoint split (c : ascii) (s : string) : list string :=
  match s with
  | EmptyString => [EmptyString]
  | String a s' =>
      if Ascii.eqb a c then EmptyString :: split c s'
      else match split c s' with
           | [] => [String a EmptyString]
           | t :: ts => String a t :: ts
           end
  end.

(** [s.split(c, 1)] unpacked into two names; only called when [c in s]. *)
Fixpoint split1 (c : ascii) (s : string) : string * string :=
  match s with
  | EmptyString => (EmptyString, EmptyString)
  | String a s' =>
      if Ascii.eqb a c then (EmptyString, s')
      else let '(h, t) := split1 c s' in (String a h, t)
  end.

(** Code-point order on [str]; on UTF-8 bytes this is the byte-wise
    lexicographic order. *)
Definition str_le (s1 s2 : string) : Prop := String.leb s1 s2 = true.

#[global] Instance str_le_dec : RelDecision str_le.
Proof. intros s1 s2. unfold str_le. apply _. Defined.

(** [sorted(xs)] for a set of strings. *)
Definition sorted (xs : gset string) : list string :=
  merge_sort str_le (elements xs).

(** [sep.join(l)] *)
Definition join (sep : string) (l : list string) : string :=
  String.concat sep l.

(** ** SelectionParser: [FieldSetParser] *)

(** [FieldSetParser(possible_fields)(value)].  The result is [None] for the
    empty string and the set of tokens otherwise. *)
Definition FieldSetParser (possible_fields : list string) (value : pyval)
  : result (option (gset string)) :=
  let possible_fields : gset string := list_to_set possible_fields in
  match value with
  | VStr value =>
      if (String.length value =? 0)%nat then Ok None
      else
        let elements : gset string := list_to_set (split "," value) in
        let unknown := elements ∖ possible_fields in
        if negb (size unknown =? 0)%nat then
          Err (ValueError ("Unknown fields: " +:+ join ", " (sorted unknown)))
        else Ok (Some elements)
  | _ => Err (ValueError "Need a str")
  end.

(** ** Field declarations ([fields.py]) *)

(** A scalar codec of the formatting library ([fields.Raw], [fields.String],
    [fields.Integer], ...) is represented by its [format] method.  A field
    given as a class stands for its default instance. *)
Definition formatter : Type := pyval → result pyval.

Definition Raw_format : formatter := λ value, Ok value.

(** [hasattr(value, name)] / [getattr(value, name)] *)
Definition getattr (value : pyval) (name : string)  : option pyval :=
  match value with
  | VObj attrs => assoc name attrs
  | _ => None
  end.

Definition hasattr (value : pyval) (name : string) : bool :=
  bool_decide (is_Some (getattr value name)).

Module ObjectMemberField.
Record t : Type := mk {
  member : string;
  default : pyval;
  attribute : option string;
  member_field : option formatter
}.

(** [ObjectMemberField.format] *)
Definition format (self : t) (value : pyval) : result pyval :=
  if hasattr value (member self) then
    match getattr value (member self) with
    | Some attr =>
        match member_field self with
        | None => Ok attr
        | Some _embedded_instance => _embedded_instance attr
        end
    | None => Err AttributeError
    end
  else Ok VNone.
End ObjectMemberField.

(** The [Meta] options of a fieldset, after composition over the class
    hierarchy; [DefaultMeta] is the base configuration. *)
Record Meta : Type := mkMeta {
  default_fields : option (list string);
  default_embedd : option (list string);
  fields_kw : string;
  embedd_kw : string
}.

Definition DefaultMeta : Meta :=
  {| default_fields := None; default_embedd := None;
     fields_kw := "fields"; embedd_kw := "embedd" |}.

(** Field objects: the declarations of a fieldset and the entries of a render
    plan.  [fields_Raw], [fields_List] and [fields_Nested] are the formatting
    library's [fields.Raw] family, [fields.List] and [fields.Nested]; a plan
    entry is [None] where [key_field()] returned [None]. *)
Inductive field : Type :=
| fields_Raw (format : formatter) (default : pyval) (attribute : option string)
| ObjectMember (o : ObjectMemberField.t)
| OptionalNestedField (nested : option fieldset) (plain_key : option string)
    (default : pyval) (attribute : option string) (allow_none : bool)
    (plain_field : option formatter)
| fields_List (container : field) (default : pyval) (attribute : option string)
| fields_Nested (nested : list (string * option field)) (allow_null : bool)
    (default : pyval) (attribute : option string)
with fieldset : Type :=
| Fieldset (_fields : list (string * field)) (meta : option Meta).

Definition plan : Type := list (string * option field).

(** [OptionalNestedField.key_field]; any other object has no such method. *)
Definition key_field (self : field) : result (option field) :=
  match self with
  | OptionalNestedField _ plain_key default attribute _ plain_field =>
      match plain_key with
      | None => Ok None
      | Some plain_key =>
          Ok (Some (ObjectMember
                      (ObjectMemberField.mk plain_key default attribute plain_field)))
      end
  | _ => Err AttributeError
  end.

(** [OptionalNestedField.nested_fieldset] *)
Definition nested_fieldset (self : field) : result (option fieldset) :=
  match self with
  | OptionalNestedField nested _ _ _ _ _ => Ok nested
  | _ => Err AttributeError
  end.

(** [OptionalNestedField.nested_kwargs]: the [attribute], [default] and
    [allow_null] keywords. *)
Definition nested_kwargs (self : field)
  : result (option string * pyval * bool) :=
  match self with
  | OptionalNestedField _ _ default attribute allow_none _ =>
      Ok (attribute, default, allow_none)
  | _ => Err AttributeError
  end.

(** [fields.Nested(nested, ** kwargs)] *)
Definition Nested (nested : list (string * option field))
    (kwargs : option string * pyval * bool) : field :=
  let '(attribute, default, allow_null) := kwargs in
  fields_Nested nested allow_null default attribute.

(** ** FieldsetSchema ([FieldsetBase]) *)

(** [getattr(f, "_optional_nested", None)] *)
Definition _optional_nested (f : field) : bool :=
  match f with
  | OptionalNestedField _ _ _ _ _ _ => true
  | _ => false
  end.

(** The test of [_find_nested] on one declaration. *)
Definition is_nested (f : field) : bool :=
  _optional_nested f ||
  match f with
  | fields_List container _ _ => _optional_nested container
  | _ => false
  end.

(** [FieldsetBase._find_nested] *)
Definition _find_nested (_fields : list (string * field)) : list string :=
  (filter (λ nf, is_nested nf.2 = true) _fields).*1.

Definition dotted (name child : string) : string := name +:+ "." +:+ child.

(** The nested fieldset reached from a nested declaration, looking through
    a list container; applies [k] to it when there is one. *)
Definition with_nested_fieldset {A} (nested_field : field)
    (k : fieldset → A) (none : A) : A :=
  match nested_field with
  | fields_List (OptionalNestedField (Some nested_fieldset) _ _ _ _ _) _ _ =>
      k nested_fieldset
  | OptionalNestedField (Some nested_fieldset) _ _ _ _ _ => k nested_fieldset
  | _ => none
  end.

(** [FieldsetBase._find_fields_all] (the [all_field_names] property).  The
    keys of [_fields] are unique, so iterating the nested names and fetching
    each declaration is iterating the nested items. *)
Fixpoint all_field_names (self : fieldset) : list string :=
  match self with
  | Fieldset _fields _ =>
      _fields.*1 ++
      flat_map (λ '(name, nested_field),
        if is_nested nested_field then
          with_nested_fieldset nested_field
            (λ nested_fieldset, dotted name <$> all_field_names nested_fieldset) []
        else []) _fields
  end.

(** [FieldsetBase._find_nested_all] (the [nested_field_names] property) *)
Fixpoint nested_field_names (self : fieldset) : list string :=
  match self with
  | Fieldset _fields _ =>
      flat_map (λ '(name, nested_field),
        if is_nested nested_field then
          name ::
          with_nested_fieldset nested_field
            (λ nested_fieldset, dotted name <$> nested_field_names nested_fieldset) []
        else []) _fields
  end.

(** The nested schema of a declaration, when it has one. *)
Definition nested_schema (f : field) : option fieldset :=
  with_nested_fieldset f Some None.

(** Every declaration whose name is nested is an [OptionalNestedField]
    holding a nested fieldset, all the way down: no nested list containers
    and no missing nested fieldset. *)
Fixpoint well_formed (self : fieldset) : bool :=
  match self with
  | Fieldset _fields _ =>
      forallb (λ '(name, f),
        match f with
        | OptionalNestedField (Some nested_fieldset) _ _ _ _ _ =>
            well_formed nested_fieldset
        | _ => negb (bool_decide (name ∈ _find_nested _fields))
        end) _fields
  end.

(** [FieldsetBase._find_default_fields] *)
Definition _find_default_fields (self : fieldset) : gset string :=
  match self with
  | Fieldset _fields meta =>
      match meta with
      | None => list_to_set _fields.*1
      | Some meta =>
          match default_fields meta with
          | None => list_to_set _fields.*1
          | Some configured => list_to_set configured
          end
      end
  end.

(** [FieldsetBase._find_default_embedd] *)
Definition _find_default_embedd (self : fieldset) : gset string :=
  match self with
  | Fieldset _fields meta =>
      match meta with
      | None => list_to_set (_find_nested _fields)
      | Some meta =>
          match default_embedd meta with
          | None => list_to_set (_find_nested _fields)
          | Some configured => list_to_set configured
          end
      end
  end.

(** ** RenderPlanBuilder ([Fieldset.marshall_dict]) *)

(** The two loops that fill [filtered_nested] and [filtered_embedd]: every
    dotted path is split at its first dot and the remainder is added to the
    set kept for the first segment. *)
Definition filter_dotted (paths : gset string) : gmap string (gset string) :=
  set_fold (λ nested (filtered : gmap string (gset string)),
    if negb (contains "." nested) then filtered
    else
      let '(field, nested_field) := split1 "." nested in
      <[field := {[nested_field]} ∪ filtered !!! field]> filtered)
    ∅ paths.

(** [selected is None or len(selected) == 0] *)
Definition unset (selected : option (gset string)) : bool :=
  match selected with
  | None => true
  | Some s => (size s =? 0)%nat
  end.

(** [if unset: selected = default] *)
Definition or_default (selected : option (gset string)) (dflt : gset string)
  : gset string :=
  match selected with
  | Some s => if unset selected then dflt else s
  | None => dflt
  end.

(** The loop [for field in fields_direct: result_dict[field] = ...].  The
    iteration order of a set is unspecified and the plan is consumed as a
    mapping; the entries are produced in the order of [_fields]. *)
Fixpoint plan_loop (body : string → field → result (option field))
    (fields_direct : gset string) (_fields : list (string * field))
  : result plan :=
  match _fields with
  | [] => Ok []
  | (field, f) :: rest =>
      if bool_decide (field ∈ fields_direct) then
        entry ← body field f;
        result_dict ← plan_loop body fields_direct rest;
        Ok ((field, entry) :: result_dict)
      else plan_loop body fields_direct rest
  end.

(** [Fieldset.marshall_dict] *)
Fixpoint marshall_dict (self : fieldset)
    (selected_fields selected_embed : option (gset string)) : result plan :=
  match self with
  | Fieldset _fields meta =>
      let selected_fields :=
        or_default selected_fields (_find_default_fields self) in
      let fields_direct := selected_fields ∩ list_to_set _fields.*1 in
      let selected_embed :=
        or_default selected_embed (_find_default_embedd self) in
      let embed_direct := selected_embed ∩ fields_direct in
      let filtered_nested := filter_dotted (selected_fields ∖ fields_direct) in
      let filtered_embedd := filter_dotted (selected_embed ∖ embed_direct) in
      plan_loop (λ field f,
        if bool_decide (field ∈ _find_nested _fields) then
          if bool_decide (field ∈ embed_direct) then
            match f with
            | fields_List container _ _ =>
                match container with
                | OptionalNestedField (Some nested_fieldset) _ _ _ _ _ =>
                    p ← marshall_dict nested_fieldset
                          (Some (filtered_nested !!! field))
                          (Some (filtered_embedd !!! field));
                    kwargs ← nested_kwargs container;
                    Ok (Some (fields_List (Nested p kwargs) VNone None))
                | _ => Err AttributeError
                end
            | OptionalNestedField (Some nested_fieldset) _ _ _ _ _ =>
                p ← marshall_dict nested_fieldset
                      (Some (filtered_nested !!! field))
                      (Some (filtered_embedd !!! field));
                kwargs ← nested_kwargs f;
                Ok (Some (Nested p kwargs))
            | _ => Err AttributeError
            end
          else key_field f
        else Ok (Some f)) fields_direct _fields
  end.

(** The intermediate sets of [marshall_dict], by the names of its local
    variables: the declared names, the selection and the embed selection
    after the defaults are substituted, and their direct parts. *)
Definition declared (self : fieldset) : list string :=
  match self with
  | Fieldset _fields _ => _fields.*1
  end.

Definition effective_fields (self : fieldset)
    (selected_fields : option (gset string)) : gset string :=
  or_default selected_fields (_find_default_fields self).

Definition effective_embed (self : fieldset)
    (selected_embed : option (gset string)) : gset string :=
  or_default selected_embed (_find_default_embedd self).

Definition fields_direct (self : fieldset)
    (selected_fields : option (gset string)) : gset string :=
  effective_fields self selected_fields ∩ list_to_set (declared self).

Definition embed_direct (self : fieldset)
    (selected_fields selected_embed : option (gset string)) : gset string :=
  effective_embed self selected_embed ∩ fields_direct self selected_fields.

(** The body of the loop of [marshall_dict] on its own: the entry built for
    one directly selected declaration. *)
Definition plan_entry (_fields : list (string * field))
    (embed_direct : gset string)
    (filtered_nested filtered_embedd : gmap string (gset string))
  : string → field → result (option field) := λ field f,
  if bool_decide (field ∈ _find_nested _fields) then
    if bool_decide (field ∈ embed_direct) then
      match f with
      | fields_List container _ _ =>
          match container with
          | OptionalNestedField (Some nested_fieldset) _ _ _ _ _ =>
              p ← marshall_dict nested_fieldset
                    (Some (filtered_nested !!! field))
                    (Some (filtered_embedd !!! field));
              kwargs ← nested_kwargs container;
              Ok (Some (fields_List (Nested p kwargs) VNone None))
          | _ => Err AttributeError
          end
      | OptionalNestedField (Some nested_fieldset) _ _ _ _ _ =>
          p ← marshall_dict nested_fieldset
                (Some (filtered_nested !!! field))
                (Some (filtered_embedd !!! field));
          kwargs ← nested_kwargs f;
          Ok (Some (Nested p kwargs))
      | _ => Err AttributeError
      end
    else key_field f
  else Ok (Some f).

(** ** The serialization primitive and the request decoder *)

(** Modelled from the spec: the formatting library's value lookup, which is
    not part of this repository.  It reads a member of a mapping or of an
    object; "MissingAttribute ... NOT an error": an absent member reads as
    null. *)
Definition get_value (key : string) (obj : pyval) : pyval :=
  match obj with
  | VDict entries => default VNone (assoc key entries)
  | VObj attrs => default VNone (assoc key attrs)
  | _ => VNone
  end.

Definition is_none (v : pyval) : bool :=
  match v with
  | VNone => true
  | _ => false
  end.

(** [mapM] over a list, stopping at the first error. *)
Fixpoint for_each {A B} (f : A → result B) (l : list A) : result (list B) :=
  match l with
  | [] => Ok []
  | a :: l' => b ← f a; bs ← for_each f l'; Ok (b :: bs)
  end.

Definition field_attribute (f : field) : option string :=
  match f with
  | fields_Raw _ _ attribute => attribute
  | ObjectMember o => ObjectMemberField.attribute o
  | OptionalNestedField _ _ _ attribute _ _ => attribute
  | fields_List _ _ attribute => attribute
  | fields_Nested _ _ _ attribute => attribute
  end.

(** A list of source objects is marshalled element by element. *)
Fixpoint over_lists (one : pyval → result pyval) (data : pyval) : result pyval :=
  match data with
  | VList items => VList <$> for_each (over_lists one) items
  | _ => one data
  end.

(** Modelled from the spec: the external primitive that "turns a RenderPlan +
    source object into the final output mapping" ("flat scalar-to-output-value
    copy, nested-mapping assembly"), missing from the sources as it belongs to
    the formatting library.  Every plan entry reads its member of the source
    object (under its attribute override when it has one) and renders it. *)
Definition marshal_by (render : field → pyval → result pyval)
    (fields : plan) (data : pyval) : result pyval :=
  over_lists (λ data,
    VDict <$> for_each (λ '(k, v),
      match v with
      | Some v =>
          out ← render v (get_value (default k (field_attribute v)) data);
          Ok (k, out)
      | None => Err AttributeError
      end) fields) data.

(** Modelled from the spec: how one plan entry renders the value read for it,
    the [output] method of the formatting library's fields, missing from the
    sources.  An absent (null) value "degrades gracefully to default/null";
    a scalar goes through the field's [format]; a nested-object entry
    marshals the value with its child plan; a nested-list entry renders every
    element with its container. *)
Fixpoint render (self : field) (value : pyval) {struct self} : result pyval :=
  match self with
  | fields_Raw format default _ =>
      if is_none value then Ok default else format value
  | ObjectMember o =>
      if is_none value then Ok (ObjectMemberField.default o)
      else ObjectMemberField.format o value
  | OptionalNestedField _ _ default _ _ _ =>
      if is_none value then Ok default else Ok value
  | fields_Nested nested allow_null default _ =>
      if is_none value && allow_null then Ok VNone
      else if is_none value && negb (is_none default) then Ok default
      else marshal_by render nested value
  | fields_List container default _ =>
      match value with
      | VList items => VList <$> for_each (render container) items
      | VNone => Ok default
      | _ =>
          match container with
          | fields_Nested nested _ _ _ =>
              out ← marshal_by render nested value; Ok (VList [out])
          | _ => Err AttributeError
          end
      end
  end.

(** [marshal(data, fields)] *)
Definition marshal (data : pyval) (fields : plan) : result pyval :=
  marshal_by render fields data.

(** Modelled from the spec: the external query-argument decoder, "given a
    parameter name and a value-coercion function ... extracts and coerces a
    single value from an inbound request".  An argument that is not sent is
    null; a coercion failure becomes a client error with the same message. *)
Definition request : Type := list (string * string).

Definition parse_arg (req : request) (name : string)
    (type : pyval → result (option (gset string)))
  : result (option (gset string)) :=
  match assoc name req with
  | None => Ok None
  | Some raw =>
      match type (VStr raw) with
      | Ok parsed => Ok parsed
      | Err (ValueError msg) => Err (BadRequest msg)
      | Err e => Err e
      end
  end.

(** ** MarshalInvoker ([Fieldset.__call__]) *)

(** What a handler returns: a bare payload or a (payload, status, headers)
    triple. *)
Inductive response : Type :=
| Bare (data : pyval)
| Triple (data : pyval) (code : Z) (headers : list (string * string)).

(** [Fieldset._parse_request_overrides] *)
Definition _parse_request_overrides (self : fieldset) (req : request)
  : result (option (gset string) * option (gset string)) :=
  match self with
  | Fieldset _ None => Err AttributeError
  | Fieldset _ (Some meta) =>
      fields ← parse_arg req (fields_kw meta)
                 (FieldSetParser (all_field_names self));
      embedd ← parse_arg req (embedd_kw meta)
                 (FieldSetParser (nested_field_names self));
      Ok (fields, embedd)
  end.

(** The [wrapper] of [Fieldset.__call__], applied to the response [resp]
    that the wrapped handler produced. *)
Definition wrapper (self : fieldset) (req : request) (resp : response)
  : result response :=
  parsed ← _parse_request_overrides self req;
  marshall_data ← marshall_dict self parsed.1 parsed.2;
  match resp with
  | Triple data code headers =>
      out ← marshal data marshall_data; Ok (Triple out code headers)
  | Bare resp => out ← marshal resp marshall_data; Ok (Bare out)
  end.

(** ** Field discovery and Meta composition ([FieldsetMeta]) *)

(** [name.startswith('_')] *)
Definition startswith_underscore (name : string) : bool :=
  match name with
  | String a _ => Ascii.eqb a "_"
  | EmptyString => false
  end.

(** The body of a [class Meta:]: the options it assigns.  An option that is
    assigned [None] is [Some None]; one that the body leaves out is [None]. *)
Record MetaBlock : Type := mkBlock {
  set_default_fields : option (option (list string));
  set_default_embedd : option (option (list string));
  set_fields_kw : option string;
  set_embedd_kw : option string
}.

(** [DefaultMeta] assigns all four. *)
Definition DefaultBlock : MetaBlock :=
  {| set_default_fields := Some None; set_default_embedd := Some None;
     set_fields_kw := Some "fields"; set_embedd_kw := Some "embedd" |}.

(** The value of a class attribute: a field (it has [format] and [output]),
    a class holding Meta options, or anything else (a method, a property, a
    number). *)
Inductive member : Type :=
| Field (f : field)
| Block (b : MetaBlock)
| Other.

(** [hasattr(value, 'format') and hasattr(value, "output")] *)
Definition is_field (value : member) : bool :=
  match value with
  | Field _ => true
  | _ => false
  end.

(** [dict(pairs)]: a later pair with a key already present replaces the
    value in place. *)
Fixpoint dict_set {A} (k : string) (v : A) (d : list (string * A))
  : list (string * A) :=
  match d with
  | [] => [(k, v)]
  | (k', v') :: d' =>
      if String.eqb k k' then (k, v) :: d' else (k', v') :: dict_set k v d'
  end.

Definition dict {A} (pairs : list (string * A)) : list (string * A) :=
  foldl (λ d kv, dict_set kv.1 kv.2 d) [] pairs.

(** Attribute lookup along a list of namespaces: the first one that has the
    name. *)
Fixpoint lookup_mro (mro : list (gmap string member)) (name : string)
  : option member :=
  match mro with
  | [] => None
  | namespace :: rest =>
      match namespace !! name with
      | Some value => Some value
      | None => lookup_mro rest name
      end
  end.

(** An option of the class [type('Meta', bases, {})]: the first base that
    assigns it; an option that no base assigns does not exist. *)
Fixpoint resolve {A} (get : MetaBlock → option A) (bases : list MetaBlock)
  : option A :=
  match bases with
  | [] => None
  | b :: rest =>
      match get b with
      | Some a => Some a
      | None => resolve get rest
      end
  end.

(** The options of an instance of that class, when all four exist. *)
Definition compose (bases : list MetaBlock) : option Meta :=
  default_fields ← resolve set_default_fields bases;
  default_embedd ← resolve set_default_embedd bases;
  fields_kw ← resolve set_fields_kw bases;
  embedd_kw ← resolve set_embedd_kw bases;
  Some (mkMeta default_fields default_embedd fields_kw embedd_kw).

(** The bases must be classes; [None] stands for the [TypeError] that
    [type] raises otherwise. *)
Fixpoint as_blocks (bases : list member) : option (list MetaBlock) :=
  match bases with
  | [] => Some []
  | Block b :: rest => cons b <$> as_blocks rest
  | _ :: rest => None
  end.

(** A class that has no [Meta] of its own, or one that leaves the option
    out. *)
Definition leaves_out {A} (get : MetaBlock → option A)
    (namespace : gmap string member) : Prop :=
  ∀ b, namespace !! "Meta" = Some (Block b) → get b = None.

Module FieldsetMeta.
(** A fieldset class: its own namespace, the namespaces of its ancestors
    below [Fieldset] (nearest first), and the two caches that
    [FieldsetMeta.__init__] creates.  The caches are kept apart from the
    namespace, so [__dict__] holds every class attribute except
    [_unbound_fields] and [_metadata_cls]: assigning or deleting one of
    these two names by hand is outside this model, and the coherence
    results for [__setattr__] and [__delattr__] exclude them. *)
Record t : Type := mk {
  __dict__ : gmap string member;
  bases : list (gmap string member);
  _unbound_fields : option (list (string * field));
  _metadata_cls : option Meta
}.

(** The public names that [Fieldset] and [FieldsetBase] themselves define. *)
Definition Fieldset_namespace : gmap string member :=
  {[ "Meta" := Block DefaultBlock; "marshall_dict" := Other;
     "do_marshal" := Other ]}.

Definition FieldsetBase_namespace : gmap string member :=
  {[ "all_field_names" := Other; "nested_field_names" := Other ]}.

(** [cls.__mro__], as namespaces. *)
Definition __mro__ (cls : t) : list (gmap string member) :=
  __dict__ cls :: bases cls ++ [Fieldset_namespace; FieldsetBase_namespace].

(** [FieldsetMeta.__init__]: a new class starts with both caches empty. *)
Definition __init__ (namespace : gmap string member)
    (bases : list (gmap string member)) : t :=
  mk namespace bases None None.

(** [dir(cls)]: the names of the class and of its bases, sorted. *)
Definition dir (cls : t) : list string :=
  sorted (⋃ (dom <$> __mro__ cls)).

(** The field scan of [FieldsetMeta.__call__]. *)
Definition scan (cls : t) : list (string * field) :=
  omap (λ name,
    if negb (startswith_underscore name) then
      match lookup_mro (__mro__ cls) name with
      | Some (Field unbound_field) => Some (name, unbound_field)
      | _ => None
      end
    else None) (dir cls).

(** The bases collected by [FieldsetMeta.__call__] and the options of the
    class made of them.  Below [Fieldset] every option is assigned by some
    base, so [None] only stands for the [TypeError] of a base that is not a
    class. *)
Definition Meta_bases (cls : t) : list member :=
  omap (λ mro_class : gmap string member, mro_class !! "Meta") (__mro__ cls).

Definition new_Meta (cls : t) : option Meta :=
  as_blocks (Meta_bases cls) ≫= compose.

(** [Fieldset.__init__]: the instance made from the two caches. *)
Definition instance (fields : list (string * field)) (meta : Meta) : fieldset :=
  Fieldset (dict fields) (Some meta).

(** [FieldsetMeta.__call__]: fills the caches that are empty, then creates
    the instance.  The instance is [None] when composing the Meta fails. *)
Definition __call__ (cls : t) : t * option fieldset :=
  let fields :=
    match _unbound_fields cls with
    | None => scan cls
    | Some fields => fields
    end in
  match _metadata_cls cls with
  | Some meta =>
      (mk (__dict__ cls) (bases cls) (Some fields) (Some meta),
       Some (instance fields meta))
  | None =>
      match new_Meta cls with
      | Some meta =>
          (mk (__dict__ cls) (bases cls) (Some fields) (Some meta),
           Some (instance fields meta))
      | None => (mk (__dict__ cls) (bases cls) (Some fields) None, None)
      end
  end.

(** [FieldsetMeta.__setattr__] *)
Definition __setattr__ (cls : t) (name : string) (value : member) : t :=
  let cls :=
    if String.eqb name "Meta" then
      mk (__dict__ cls) (bases cls) (_unbound_fields cls) None
    else if negb (startswith_underscore name) && is_field value then
      mk (__dict__ cls) (bases cls) None (_metadata_cls cls)
    else cls in
  mk (<[name := value]> (__dict__ cls)) (bases cls)
     (_unbound_fields cls) (_metadata_cls cls).

(** [FieldsetMeta.__delattr__]: the cache is cleared before the attribute
    is removed, and removing a name that the class itself does not have
    raises. *)
Definition __delattr__ (cls : t) (name : string) : t * result unit :=
  let cls :=
    if negb (startswith_underscore name) then
      mk (__dict__ cls) (bases cls) None (_metadata_cls cls)
    else cls in
  match __dict__ cls !! name with
  | Some _ =>
      (mk (delete name (__dict__ cls)) (bases cls)
          (_unbound_fields cls) (_metadata_cls cls), Ok ())
  | None => (cls, Err AttributeError)
  end.

(** The caches agree with the class as it is now. *)
Definition coherent (cls : t) : Prop :=
  (∀ fields, _unbound_fields cls = Some fields → fields = scan cls) ∧
  (∀ meta, _metadata_cls cls = Some meta → new_Meta cls = Some meta).

(** The same class with both caches empty. *)
Definition fresh (cls : t) : t := __init__ (__dict__ cls) (bases cls).
End FieldsetMeta.

(** The test that the field scan applies to one name of [dir(cls)]. *)
Definition scan_one (mro : list (gmap string member)) (name : string)
  : option (string * field) :=
  if negb (startswith_underscore name) then
    match lookup_mro mro name with
    | Some (Field unbound_field) => Some (name, unbound_field)
    | _ => None
    end
  else None.

(** ** A sample schema *)

Module Sample.
(** [fields.Raw()] *)
Definition Raw : field := fields_Raw Raw_format VNone None.

(** The nested schema: fields [email] and [id]. *)
Definition OwnerFieldset (meta : Meta) : fieldset :=
  Fieldset [("email", Raw); ("id", Raw)] (Some meta).

(** The parent schema: [id], [name], and [owner] nested with plain key
    [id]. *)
Definition owner_field : field :=
  OptionalNestedField (Some (OwnerFieldset DefaultMeta)) (Some "id")
    VNone None false None.

Definition ThingFieldset (meta : Meta) : fieldset :=
  Fieldset [("id", Raw); ("name", Raw); ("owner", owner_field)]
    (Some meta).

(** [{id:1, name:"Bob", owner:{id:9, email:"a@b.c"}}], as an object with
    these attributes and as a mapping with these keys. *)
Definition bob : pyval :=
  VObj [("id", VInt 1); ("name", VStr "Bob");
        ("owner", VObj [("id", VInt 9); ("email", VStr "a@b.c")])].

Definition bob_dict : pyval :=
  VDict [("id", VInt 1); ("name", VStr "Bob");
         ("owner", VDict [("id", VInt 9); ("email", VStr "a@b.c")])].

Definition query (fields embedd : string) : request :=
  [("fields", fields); ("embedd", embedd)].

(** A schema with a list of nested declarations: a thread and its posts. *)
Definition PostFieldset : fieldset :=
  Fieldset [("body", Raw); ("id", Raw)] (Some DefaultMeta).

Definition posts_field : field :=
  fields_List
    (OptionalNestedField (Some PostFieldset) (Some "id") VNone None false None)
    VNone None.

Definition ThreadFieldset : fieldset :=
  Fieldset [("posts", posts_field); ("title", Raw)] (Some DefaultMeta).

(** A class with three fields, a private field, a method, and a Meta that
    only renames the fields parameter; and a subclass that adds a field and
    hides [name] behind a method. *)
Definition Thing : FieldsetMeta.t :=
  FieldsetMeta.__init__
    {[ "id" := Field Raw; "name" := Field Raw; "owner" := Field owner_field;
       "_secret" := Field Raw; "helper" := Other;
       "Meta" := Block (mkBlock None None (Some "only") None) ]} [].

Definition SubThing : FieldsetMeta.t :=
  FieldsetMeta.__init__
    {[ "extra" := Field Raw; "name" := Other;
       "Meta" := Block (mkBlock (Some (Some ["id"])) None None None) ]}
    [FieldsetMeta.__dict__ Thing].
End Sample.

(** * Properties *)

(** ** The order used by [sorted] *)

Lemma compare_as_OT (s1 s2 : string) :
  String.compare s1 s2 = OrdersEx.String_as_OT.compare s1 s2.
Proof.
  reflexivity.
Qed.

Lemma str_le_lt_eq (s1 s2 : string) :
  str_le s1 s2 ↔ OrdersEx.String_as_OT.lt s1 s2 ∨ s1 = s2.
Proof.
  unfold str_le, String.leb. rewrite compare_as_OT.
  pose proof (OrdersEx.String_as_OT.compare_spec s1 s2) as Hspec.
  unfold OrdersEx.String_as_OT.lt in *.
  destruct (OrdersEx.String_as_OT.compare s1 s2) eqn:E; inversion Hspec.
  - split; auto.
  - split; auto.
  - split; [discriminate|]. intros [Hlt| ->]; [discriminate|].
    rewrite E in *. discriminate.
Qed.

#[global] Instance str_le_total : Total str_le.
Proof. intros s1 s2. apply String.leb_total. Qed.

#[global] Instance str_le_antisymm : AntiSymm (=) str_le.
Proof. intros s1 s2. apply String.leb_antisym. Qed.

#[global] Instance str_le_trans : Transitive str_le.
Proof.
  intros s1 s2 s3. rewrite !str_le_lt_eq.
  intros [H12| ->] [H23| ->]; auto.
  left. etransitivity; eassumption.
Qed.

(** [sorted] lists exactly the members of the set, once each, in order. *)
Lemma sorted_spec (xs : gset string) :
  StronglySorted str_le (sorted xs) ∧ NoDup (sorted xs) ∧
  ∀ t, t ∈ sorted xs ↔ t ∈ xs.
Proof.
  unfold sorted. split; [|split].
  - apply StronglySorted_merge_sort; apply _.
  - rewrite merge_sort_Permutation. apply NoDup_elements.
  - intros t. rewrite merge_sort_Permutation. apply elem_of_elements.
Qed.

(** ** [split] is the inverse of joining with the separator *)

Lemma split_nonempty (c : ascii) (s : string) : split c s ≠ [].
Proof.
  destruct s as [|a s]; simpl; [discriminate|].
  destruct (Ascii.eqb a c); [discriminate|].
  destruct (split c s); discriminate.
Qed.

Lemma split_join (c : ascii) (s : string) :
  join (String c EmptyString) (split c s) = s.
Proof.
  unfold join. induction s as [|a s IH]; [reflexivity|].
  pose proof (split_nonempty c s) as Hne. simpl.
  destruct (Ascii.eqb_spec a c) as [->|Hac].
  - destruct (split c s) as [|t ts]; [contradiction|].
    simpl in *. rewrite IH. reflexivity.
  - destruct (split c s) as [|t ts]; [contradiction|].
    destruct ts as [|t' ts]; simpl in *; rewrite <- IH; reflexivity.
Qed.

Lemma split_no_sep (c : ascii) (s t : string) :
  t ∈ split c s → contains c t = false.
Proof.
  revert t. induction s as [|a s IH]; simpl; intros t Ht.
  - apply list_elem_of_singleton in Ht as ->. reflexivity.
  - destruct (Ascii.eqb_spec a c) as [->|Hne].
    + apply elem_of_cons in Ht as [->|Ht]; [reflexivity|auto].
    + destruct (split c s) as [|t' ts].
      * apply list_elem_of_singleton in Ht as ->. simpl.
        destruct (Ascii.eqb_spec a c); [contradiction|reflexivity].
      * apply elem_of_cons in Ht as [->|Ht].
        -- simpl. destruct (Ascii.eqb_spec a c); [contradiction|].
           apply IH. left.
        -- apply IH. right. exact Ht.
Qed.

(** ** SelectionParser *)

Lemma length_eqb_0 (s : string) :
  s ≠ EmptyString → (String.length s =? 0)%nat = false.
Proof. destruct s; [contradiction|reflexivity]. Qed.

(** The parser on a non-empty string, in terms of the set of unknown
    tokens. *)
Lemma FieldSetParser_nonempty (possible_fields : list string) (s : string) :
  s ≠ EmptyString →
  let elements : gset string := list_to_set (split "," s) in
  let unknown := elements ∖ list_to_set possible_fields in
  FieldSetParser possible_fields (VStr s) =
    if decide (unknown = ∅) then Ok (Some elements)
    else Err (ValueError ("Unknown fields: " +:+ join ", " (sorted unknown))).
Proof.
  intros Hs. simpl. unfold FieldSetParser. rewrite (length_eqb_0 s Hs).
  destruct (decide _) as [->|Hne].
  - reflexivity.
  - destruct (Nat.eqb_spec
      (size (list_to_set (split "," s) ∖ list_to_set possible_fields
               : gset string)) 0) as [H0|H0]; [|reflexivity].
    apply size_empty_iff in H0. apply leibniz_equiv in H0. contradiction.
Qed.

(** C4 (as stated): the parser does not return an empty set for the empty
    string. *)
Lemma empty_string_not_an_empty_set :
  FieldSetParser ["a"; "b"] (VStr "") ≠ Ok (Some ∅).
Proof. vm_compute. discriminate. Qed.

(** C4 (amended): for every vocabulary, parsing the empty string succeeds and
    returns [None], no set at all; the plan builder treats that result like
    an empty set, in either argument. *)
Theorem empty_string_parses_to_None (possible_fields : list string) :
  FieldSetParser possible_fields (VStr "") = Ok None ∧
  ∀ self selected,
    marshall_dict self None selected = marshall_dict self (Some ∅) selected ∧
    marshall_dict self selected None = marshall_dict self selected (Some ∅).
Proof.
  split; [reflexivity|].
  intros [_fields meta] selected. split; reflexivity.
Qed.

(** C5: a non-empty string is split on commas into the set of its tokens; when
    every token is in the vocabulary the parser returns that set, and
    otherwise it fails with the unknown tokens, each once and in sorted
    order, joined into the error message. *)
Theorem parse_nonempty (possible_fields : list string) (s : string) :
  s ≠ EmptyString →
  let tokens : gset string := list_to_set (split "," s) in
  (tokens ⊆ list_to_set possible_fields →
   FieldSetParser possible_fields (VStr s) = Ok (Some tokens)) ∧
  (tokens ⊈ list_to_set possible_fields →
   ∃ offending : list string,
     FieldSetParser possible_fields (VStr s) =
       Err (ValueError ("Unknown fields: " +:+ join ", " offending)) ∧
     StronglySorted str_le offending ∧ NoDup offending ∧
     ∀ t, t ∈ offending ↔ t ∈ split "," s ∧ t ∉ possible_fields).
Proof.
  intros Hs tokens. rewrite (FieldSetParser_nonempty _ _ Hs). fold tokens.
  split.
  - intros Hsub. destruct (decide _) as [_|Hne]; [reflexivity|].
    exfalso. apply Hne. apply set_eq. intros t. set_solver.
  - intros Hnsub. destruct (decide _) as [He|_].
    + exfalso. apply Hnsub. intros t Ht.
      destruct (decide (t ∈ (list_to_set possible_fields : gset string)))
        as [|Hn]; [assumption|].
      assert (t ∈ tokens ∖ list_to_set possible_fields) as Hin by set_solver.
      rewrite He in Hin. set_solver.
    + exists (sorted (tokens ∖ list_to_set possible_fields)).
      destruct (sorted_spec (tokens ∖ list_to_set possible_fields))
        as (Hsorted & Hnodup & Hmem).
      split; [reflexivity|]. split; [assumption|]. split; [assumption|].
      intros t. rewrite Hmem. unfold tokens.
      rewrite elem_of_difference, !elem_of_list_to_set. reflexivity.
Qed.

Lemma parse_nonempty_witness :
  FieldSetParser ["a"; "b"] (VStr "a,b,a") = Ok (Some {["a"; "b"]}) ∧
  ∃ offending,
    FieldSetParser ["a"; "b"] (VStr "z,a,y") =
      Err (ValueError ("Unknown fields: " +:+ join ", " offending)) ∧
    StronglySorted str_le offending ∧ NoDup offending ∧
    ∀ t, t ∈ offending ↔ t ∈ split "," "z,a,y" ∧ t ∉ ["a"; "b"].
Proof.
  split.
  - refine (proj1 (parse_nonempty ["a"; "b"] "a,b,a" _) _).
    + discriminate.
    + compute_done.
  - refine (proj2 (parse_nonempty ["a"; "b"] "z,a,y" _) _).
    + discriminate.
    + compute_done.
Defined.

(** C10 (as stated): a vocabulary can contain both ["b"] and [" b"], and then
    ["a, b"] parses. *)
Lemma parse_space_token_valid :
  "b" ∈ ["a"; "b"; " b"] ∧
  FieldSetParser ["a"; "b"; " b"] (VStr "a, b") = Ok (Some {["a"; " b"]}).
Proof. split; [set_solver|]. vm_compute. reflexivity. Qed.

(** C10 (amended): tokens are matched literally, without trimming: for every
    vocabulary that does not contain [" b"] (whether or not it contains
    ["b"]), parsing ["a, b"] fails and the error reports the token [" b"],
    with its leading space, as unknown. *)
Theorem parse_no_trim (possible_fields : list string) :
  " b" ∉ possible_fields →
  FieldSetParser possible_fields (VStr "a, b") =
    Err (ValueError
           (if bool_decide ("a" ∈ possible_fields)
            then "Unknown fields:  b" else "Unknown fields:  b, a")).
Proof.
  intros Hb. rewrite FieldSetParser_nonempty by discriminate.
  change (split "," "a, b") with ["a"; " b"].
  destruct (decide _) as [He|_].
  - exfalso.
    assert (" b" ∈ (list_to_set ["a"; " b"] ∖ list_to_set possible_fields
                     : gset string)) as Hin by set_solver.
    rewrite He in Hin. set_solver.
  - case_bool_decide as Ha.
    + replace (list_to_set ["a"; " b"] ∖ list_to_set possible_fields
                : gset string) with ({[" b"]} : gset string); [reflexivity|].
      apply set_eq. intros t. set_solver.
    + replace (list_to_set ["a"; " b"] ∖ list_to_set possible_fields
                : gset string) with ({["a"; " b"]} : gset string);
        [vm_compute; reflexivity|].
      apply set_eq. intros t. set_solver.
Qed.

Lemma parse_no_trim_witness :
  FieldSetParser ["a"; "b"] (VStr "a, b") =
    Err (ValueError "Unknown fields:  b").
Proof.
  refine (parse_no_trim ["a"; "b"] _).
  compute_done.
Defined.

(** ** ScalarFieldAdapter *)

(** The cases of the repository's tests: a present member, an absent
    member, and the key field of a nested declaration with and without a
    plain key. *)
Example test_0010_simple_usage :
  ObjectMemberField.format (ObjectMemberField.mk "test" VNone None None)
    (VObj [("test", VStr "XXX")]) = Ok (VStr "XXX").
Proof. reflexivity. Qed.

Example test_0020_no_attribute :
  ObjectMemberField.format (ObjectMemberField.mk "test" VNone None None)
    (VObj []) = Ok VNone.
Proof. reflexivity. Qed.

Example test_0010_nested_usage :
  key_field (OptionalNestedField None (Some "test") VNone None false None)
  = Ok (Some (ObjectMember (ObjectMemberField.mk "test" VNone None None))) ∧
  ObjectMemberField.format (ObjectMemberField.mk "test" VNone None None)
    (VObj [("test", VInt 2)]) = Ok (VInt 2).
Proof. split; reflexivity. Qed.

Example test_0020_no_nested_key :
  key_field (OptionalNestedField None None VNone None false None) = Ok None.
Proof. reflexivity. Qed.

(** C3 (as stated): with a configured default other than null, an object
    that lacks the member formats to null, not to the default. *)
Lemma format_missing_member_ignores_default :
  ObjectMemberField.format
    (ObjectMemberField.mk "test" (VStr "n/a") None None) (VObj [("other", VInt 2)])
  ≠ Ok (VStr "n/a").
Proof. vm_compute. discriminate. Qed.

(** C3 (amended): for every member name, default, sub-formatter and source
    object, [format] reads the named member; when the object lacks it the
    result is null, whatever default is configured, and nothing fails; when
    the member is present it is returned as it is, or passed through the
    sub-formatter when one is configured. *)
Theorem format_reads_member (self : ObjectMemberField.t) (value : pyval) :
  ObjectMemberField.format self value =
    match getattr value (ObjectMemberField.member self) with
    | None => Ok VNone
    | Some attr =>
        match ObjectMemberField.member_field self with
        | None => Ok attr
        | Some sub_formatter => sub_formatter attr
        end
    end.
Proof.
  unfold ObjectMemberField.format, hasattr.
  destruct (getattr value (ObjectMemberField.member self)) as [attr|].
  - rewrite bool_decide_eq_true_2 by eauto. reflexivity.
  - rewrite bool_decide_eq_false_2 by (intros [? ?]; discriminate). reflexivity.
Qed.

(** ** FieldsetSchema: default selections *)

Lemma plan_loop_unselected (body : string → field → result (option field))
    (_fields : list (string * field)) :
  plan_loop body ∅ _fields = Ok [].
Proof.
  induction _fields as [|[field f] rest IH]; [reflexivity|]. simpl.
  rewrite bool_decide_eq_false_2 by set_solver. exact IH.
Qed.

(** C6: the default field set is the configured [default_fields] whenever
    one is configured, the empty list included, and the set of all direct
    field names otherwise; the default embed set is the configured
    [default_embedd], and the set of all nested names otherwise.  With the
    empty list configured there are no defaults: an unset selection builds
    the empty plan. *)
Theorem default_sets_resolved (_fields : list (string * field))
    (fields_kw embedd_kw : string) (other : option (list string)) :
  (∀ configured,
     _find_default_fields
       (Fieldset _fields (Some (mkMeta (Some configured) other fields_kw embedd_kw)))
     = list_to_set configured) ∧
  _find_default_fields
    (Fieldset _fields (Some (mkMeta (Some []) other fields_kw embedd_kw))) = ∅ ∧
  _find_default_fields
    (Fieldset _fields (Some (mkMeta None other fields_kw embedd_kw)))
  = list_to_set _fields.*1 ∧
  _find_default_fields (Fieldset _fields None) = list_to_set _fields.*1 ∧
  (∀ configured,
     _find_default_embedd
       (Fieldset _fields (Some (mkMeta other (Some configured) fields_kw embedd_kw)))
     = list_to_set configured) ∧
  _find_default_embedd
    (Fieldset _fields (Some (mkMeta other (Some []) fields_kw embedd_kw))) = ∅ ∧
  _find_default_embedd
    (Fieldset _fields (Some (mkMeta other None fields_kw embedd_kw)))
  = list_to_set (_find_nested _fields) ∧
  _find_default_embedd (Fieldset _fields None) = list_to_set (_find_nested _fields) ∧
  (∀ selected_embed,
     marshall_dict
       (Fieldset _fields (Some (mkMeta (Some []) other fields_kw embedd_kw)))
       None selected_embed = Ok []).
Proof.
  repeat split. intros selected_embed. cbn [marshall_dict].
  replace (or_default None _ ∩ list_to_set _fields.*1) with (∅ : gset string).
  - apply plan_loop_unselected.
  - apply set_eq. intros t. cbn. set_solver.
Qed.

(** ** RenderPlanBuilder *)

Lemma or_default_unset (selected : option (gset string)) (dflt : gset string) :
  unset selected = true → or_default selected dflt = dflt.
Proof. unfold or_default. intros ->. destruct selected; reflexivity. Qed.

Lemma or_default_self (dflt : gset string) :
  or_default (Some dflt) dflt = dflt.
Proof. unfold or_default. destruct (unset _); reflexivity. Qed.

(** The plan depends on the selections only through their substitution by
    the defaults. *)
Lemma marshall_dict_or_default (self : fieldset)
    (sf sf' se se' : option (gset string)) :
  or_default sf (_find_default_fields self)
    = or_default sf' (_find_default_fields self) →
  or_default se (_find_default_embedd self)
    = or_default se' (_find_default_embedd self) →
  marshall_dict self sf se = marshall_dict self sf' se'.
Proof.
  destruct self as [_fields meta]. intros Hf He.
  cbn [marshall_dict]. rewrite Hf, He. reflexivity.
Qed.

(** C7: building the plan with empty or unset selections gives the same
    result as building it with the schema's default field set and default
    embed set passed explicitly. *)
Theorem marshall_dict_default_fallback (self : fieldset)
    (selected_fields selected_embed : option (gset string)) :
  unset selected_fields = true →
  unset selected_embed = true →
  marshall_dict self selected_fields selected_embed =
  marshall_dict self (Some (_find_default_fields self))
                     (Some (_find_default_embedd self)).
Proof.
  intros Hf He. apply marshall_dict_or_default.
  - rewrite or_default_self. apply or_default_unset, Hf.
  - rewrite or_default_self. apply or_default_unset, He.
Qed.

Lemma marshall_dict_default_fallback_witness :
  marshall_dict (Sample.ThingFieldset DefaultMeta) (Some ∅) None =
  marshall_dict (Sample.ThingFieldset DefaultMeta)
    (Some (_find_default_fields (Sample.ThingFieldset DefaultMeta)))
    (Some (_find_default_embedd (Sample.ThingFieldset DefaultMeta))).
Proof.
  apply (marshall_dict_default_fallback (Sample.ThingFieldset DefaultMeta)
           (Some ∅) None); reflexivity.
Defined.

(** ** FieldsetSchema: addressable paths *)

Lemma nested_schema_is_nested (f : field) (nested_fs : fieldset) :
  nested_schema f = Some nested_fs → is_nested f = true.
Proof.
  destruct f as [| | [?|] ? ? ? ? ?|c ? ?|]; try discriminate; [reflexivity|].
  destruct c as [| | [?|] ? ? ? ? ?| |]; try discriminate. reflexivity.
Qed.

Lemma with_nested_fieldset_schema {A} (f : field) (k : fieldset → A) (none : A) :
  with_nested_fieldset f k none =
    match nested_schema f with
    | Some nested_fs => k nested_fs
    | None => none
    end.
Proof.
  destruct f as [| | [?|] ? ? ? ? ?|c ? ?|]; try reflexivity.
  destruct c as [| | [?|] ? ? ? ? ?| |]; reflexivity.
Qed.

Lemma elem_of_find_nested (_fields : list (string * field)) (n : string) :
  n ∈ _find_nested _fields ↔ ∃ f, (n, f) ∈ _fields ∧ is_nested f = true.
Proof.
  unfold _find_nested. rewrite list_elem_of_fmap. split.
  - intros [[n' f] [-> Hin]]. apply list_elem_of_filter in Hin as [Hn Hin].
    exists f. split; assumption.
  - intros [f [Hin Hn]]. exists (n, f). split; [reflexivity|].
    apply list_elem_of_filter. split; assumption.
Qed.

(** C8: the addressable paths of a schema contain every direct field name,
    and, for every nested declaration [n] and every addressable path [p] of
    its nested schema, the dotted path [n.p]. *)
Theorem all_field_names_closed (_fields : list (string * field))
    (meta : option Meta) :
  (∀ name, name ∈ _fields.*1 → name ∈ all_field_names (Fieldset _fields meta)) ∧
  (∀ n f nested_fs p,
     (n, f) ∈ _fields →
     n ∈ _find_nested _fields →
     nested_schema f = Some nested_fs →
     p ∈ all_field_names nested_fs →
     dotted n p ∈ all_field_names (Fieldset _fields meta)).
Proof.
  split.
  - intros name Hin. cbn [all_field_names]. apply elem_of_app. left. exact Hin.
  - intros n f nested_fs p Hin _ Hschema Hp. cbn [all_field_names].
    apply elem_of_app. right.
    apply list_elem_of_In, in_flat_map. exists (n, f).
    split; [apply list_elem_of_In, Hin|].
    rewrite (nested_schema_is_nested _ _ Hschema).
    rewrite with_nested_fieldset_schema, Hschema.
    apply list_elem_of_In, list_elem_of_fmap. exists p. split; [reflexivity|exact Hp].
Qed.

Lemma all_field_names_closed_witness :
  "owner.email" ∈ all_field_names (Sample.ThingFieldset DefaultMeta).
Proof.
  refine (proj2 (all_field_names_closed _ _) "owner" Sample.owner_field
            (Sample.OwnerFieldset DefaultMeta) "email" _ _ _ _).
  - right. right. left.
  - compute_done.
  - reflexivity.
  - compute_done.
Defined.

(** ** RenderPlanBuilder: what gets an entry *)

(** Induction over the nesting of fieldsets. *)
Lemma fieldset_nested_ind (P : fieldset → Prop) :
  (∀ _fields meta,
     (∀ name f nested_fs,
        (name, f) ∈ _fields → nested_schema f = Some nested_fs → P nested_fs) →
     P (Fieldset _fields meta)) →
  ∀ self, P self.
Proof.
  intros Hstep. fix IH 1. intros [_fields meta]. apply Hstep.
  induction _fields as [|[name' f'] rest IHrest]; intros name f nested_fs Hin Hs.
  - inversion Hin.
  - apply elem_of_cons in Hin as [Heq|Hin].
    + injection Heq as -> ->. clear IHrest.
      destruct f' as [| | [nfs|] ? ? ? ? ?|c ? ?|]; try discriminate.
      * injection Hs as <-. apply IH.
      * destruct c as [| | [nfs|] ? ? ? ? ?| |]; try discriminate.
        injection Hs as <-. apply IH.
    + exact (IHrest name f nested_fs Hin Hs).
Qed.

Lemma plan_loop_keys (body : string → field → result (option field))
    (fields_direct : gset string) (_fields : list (string * field)) (p : plan) :
  plan_loop body fields_direct _fields = Ok p →
  ∀ k, k ∈ p.*1 → k ∈ fields_direct.
Proof.
  revert p. induction _fields as [|[field f] rest IH]; intros p; simpl.
  - intros [= <-] k Hk. inversion Hk.
  - case_bool_decide as Hsel; [|apply IH].
    destruct (body field f) as [entry|]; [|discriminate]. simpl.
    destruct (plan_loop body fields_direct rest) as [result_dict|];
      [|discriminate]. simpl.
    intros [= <-] k Hk. simpl in Hk.
    apply elem_of_cons in Hk as [->|Hk]; [assumption|].
    exact (IH result_dict eq_refl k Hk).
Qed.

Lemma plan_loop_total (body : string → field → result (option field))
    (fields_direct : gset string) (_fields : list (string * field)) :
  (∀ field f, (field, f) ∈ _fields → ∃ entry, body field f = Ok entry) →
  ∃ p, plan_loop body fields_direct _fields = Ok p.
Proof.
  induction _fields as [|[field f] rest IH]; intros Hbody; simpl.
  - eauto.
  - destruct IH as [p Hp].
    { intros field' f' Hin. apply Hbody. right. exact Hin. }
    case_bool_decide; [|eauto].
    destruct (Hbody field f) as [entry ->]; [left|].
    simpl. rewrite Hp. simpl. eauto.
Qed.

Lemma or_default_nonempty (selected dflt : gset string) (x : string) :
  x ∈ selected → or_default (Some selected) dflt = selected.
Proof.
  intros Hx. unfold or_default, unset.
  destruct (Nat.eqb_spec (size selected) 0) as [H0|_]; [|reflexivity].
  apply size_empty_iff in H0. set_solver.
Qed.

(** A plan only has entries for directly selected fields. *)
Lemma marshall_dict_keys (self : fieldset)
    (selected_fields selected_embed : option (gset string)) (p : plan) :
  marshall_dict self selected_fields selected_embed = Ok p →
  ∀ k, k ∈ p.*1 →
       k ∈ or_default selected_fields (_find_default_fields self).
Proof.
  destruct self as [_fields meta]. cbn [marshall_dict]. intros Hp k Hk.
  pose proof (plan_loop_keys _ _ _ _ Hp k Hk) as Hin.
  apply elem_of_intersection in Hin as [Hin _]. exact Hin.
Qed.

(** A well-formed schema has a plan for every selection. *)
Lemma marshall_dict_total (self : fieldset) :
  well_formed self = true →
  ∀ selected_fields selected_embed,
    ∃ p, marshall_dict self selected_fields selected_embed = Ok p.
Proof.
  induction self as [_fields meta IH] using fieldset_nested_ind.
  intros Hwf sf se. cbn [marshall_dict]. apply plan_loop_total.
  intros field f Hin.
  cbn [well_formed] in Hwf. rewrite forallb_forall in Hwf.
  specialize (Hwf (field, f) (proj1 (list_elem_of_In _ _) Hin)). simpl in Hwf.
  case_bool_decide as Hnested.
  - destruct f as [| | [nfs|] pk d a an pf| |];
      try discriminate Hwf.
    case_bool_decide.
    + match goal with
      | |- context [marshall_dict nfs ?sf' ?se'] =>
          destruct (IH field _ nfs Hin eq_refl Hwf sf' se') as [p Hp]
      end.
      rewrite Hp. simpl. eauto.
    + simpl. destruct pk; eauto.
  - eauto.
Qed.

(** ** The sample schema, end to end *)

(** C2 (as stated): with the [Meta] defaults left unconfigured, an empty
    embed selection falls back to all nested names, so [owner] is rendered
    as a nested object and not as its reference key. *)
Lemma owner_embedded_by_default :
  marshall_dict (Sample.ThingFieldset DefaultMeta) (Some {["owner"]}) (Some ∅)
  ≠ Ok [("owner",
         Some (ObjectMember (ObjectMemberField.mk "id" VNone None None)))].
Proof. vm_compute. discriminate. Qed.

(** C2 (amended): for the schema [{id, name, owner}] with [owner] nested over
    [{id, email}] and plain key [id], selecting [{owner}] with an empty embed
    selection yields the reference-key rendering of [owner] (the adapter
    reading member [id]) when the schema configures [default_embedd] as the
    empty list; when [default_embedd] is unconfigured the empty embed
    selection yields the same plan as the embed selection [{owner}], which
    for every configuration is the nested-object rendering whose child plan
    holds the nested schema's fields [{id, email}], the plan that the nested
    schema builds from empty selections.  The reference-key adapter formats
    the owner object to its [id]. *)
Theorem owner_key_or_nested (default_fields : option (list string))
    (fields_kw embedd_kw : string) :
  let child_plan : plan :=
    [("email", Some Sample.Raw); ("id", Some Sample.Raw)] in
  let nested_owner : plan :=
    [("owner", Some (fields_Nested child_plan false VNone None))] in
  marshall_dict
    (Sample.ThingFieldset (mkMeta default_fields (Some []) fields_kw embedd_kw))
    (Some {["owner"]}) (Some ∅)
  = Ok [("owner",
         Some (ObjectMember (ObjectMemberField.mk "id" VNone None None)))] ∧
  marshall_dict
    (Sample.ThingFieldset (mkMeta default_fields None fields_kw embedd_kw))
    (Some {["owner"]}) (Some ∅)
  = Ok nested_owner ∧
  (∀ default_embedd,
     marshall_dict
       (Sample.ThingFieldset (mkMeta default_fields default_embedd fields_kw embedd_kw))
       (Some {["owner"]}) (Some {["owner"]})
     = Ok nested_owner) ∧
  marshall_dict (Sample.OwnerFieldset DefaultMeta) (Some ∅) (Some ∅)
  = Ok child_plan ∧
  ObjectMemberField.format (ObjectMemberField.mk "id" VNone None None)
    (VObj [("id", VInt 9); ("email", VStr "a@b.c")])
  = Ok (VInt 9).
Proof.
  repeat split; intros; vm_compute; reflexivity.
Qed.

(** C1 (as stated): under [fields=name,owner.email] and [embedd=owner] the
    output has no [owner] at all, because [owner] itself is not selected. *)
Lemma owner_not_selected_not_rendered :
  wrapper (Sample.ThingFieldset DefaultMeta)
    (Sample.query "name,owner.email" "owner") (Bare Sample.bob)
  = Ok (Bare (VDict [("name", VStr "Bob")])) ∧
  wrapper (Sample.ThingFieldset DefaultMeta)
    (Sample.query "name,owner.email" "owner") (Bare Sample.bob)
  ≠ Ok (Bare (VDict [("name", VStr "Bob");
                     ("owner", VDict [("email", VStr "a@b.c")])])).
Proof. split; vm_compute; [reflexivity|discriminate]. Qed.

(** C1 (amended): for the schema [{id, name, owner}] with [owner] nested over
    [{id, email}], marshalling [{id:1, name:"Bob", owner:{id:9,
    email:"a@b.c"}}] under [fields=name,owner,owner.email] and [embedd=owner]
    (the nested field itself is selected too) produces [{name:"Bob",
    owner:{email:"a@b.c"}}]: [owner] is embedded as an object with exactly
    the requested sub-field.  The payload comes back in the shape the handler
    returned it. *)
Theorem owner_selected_and_embedded :
  let output :=
    VDict [("name", VStr "Bob"); ("owner", VDict [("email", VStr "a@b.c")])] in
  wrapper (Sample.ThingFieldset DefaultMeta)
    (Sample.query "name,owner,owner.email" "owner") (Bare Sample.bob)
  = Ok (Bare output) ∧
  wrapper (Sample.ThingFieldset DefaultMeta)
    (Sample.query "name,owner,owner.email" "owner") (Bare Sample.bob_dict)
  = Ok (Bare output) ∧
  wrapper (Sample.ThingFieldset DefaultMeta)
    (Sample.query "name,owner,owner.email" "owner") (Triple Sample.bob 200 [])
  = Ok (Triple output 200 []).
Proof. repeat split; vm_compute; reflexivity. Qed.

(** * Further properties *)

(** ** SelectionParser: what an accepted selection looks like *)

Lemma split_whole (c : ascii) (t : string) :
  contains c t = false → split c t = [t].
Proof.
  induction t as [|a t IH]; [reflexivity|]. simpl.
  destruct (Ascii.eqb a c); [discriminate|]. intros Ht. rewrite (IH Ht).
  reflexivity.
Qed.

Lemma split_app_sep (c : ascii) (t s : string) :
  contains c t = false →
  split c (t +:+ String c s) = t :: split c s.
Proof.
  induction t as [|a t IH]; simpl.
  - intros _. rewrite Ascii.eqb_refl. reflexivity.
  - destruct (Ascii.eqb a c); [discriminate|]. intros Ht. rewrite (IH Ht).
    reflexivity.
Qed.

Lemma split_of_join (c : ascii) (l : list string) :
  l ≠ [] → (∀ t, t ∈ l → contains c t = false) →
  split c (join (String c EmptyString) l) = l.
Proof.
  unfold join. induction l as [|t l IH]; [contradiction|]. intros _ Hl.
  destruct l as [|t' l].
  - simpl. apply split_whole, Hl. left.
  - change (String.concat (String c EmptyString) (t :: t' :: l))
      with (t +:+ String c (String.concat (String c EmptyString) (t' :: l))).
    rewrite split_app_sep by (apply Hl; left).
    rewrite IH; [reflexivity|discriminate|].
    intros u Hu. apply Hl. right. exact Hu.
Qed.

(** X1: whatever the parser accepts as a set is a non-empty set of
    comma-free tokens, all of them in the vocabulary, and it comes from a
    non-empty string. *)
Theorem parser_result_sound (possible_fields : list string) (value : pyval)
    (selected : gset string) :
  FieldSetParser possible_fields value = Ok (Some selected) →
  ∃ raw, value = VStr raw ∧ raw ≠ EmptyString ∧
    selected = list_to_set (split "," raw) ∧
    selected ≠ ∅ ∧
    (∀ t, t ∈ selected → t ∈ possible_fields ∧ contains "," t = false).
Proof.
  destruct value as [| |raw| | |]; try discriminate.
  destruct (decide (raw = EmptyString)) as [->|Hraw]; [discriminate|].
  rewrite (FieldSetParser_nonempty _ _ Hraw).
  destruct (decide _) as [Hunknown|_]; [|discriminate].
  intros [= <-]. exists raw. repeat split; try assumption.
  - pose proof (split_nonempty "," raw) as Hne.
    destruct (split "," raw) as [|t ts]; [contradiction|]. set_solver.
  - destruct (decide (t ∈ possible_fields)) as [|Hn]; [assumption|].
    assert (t ∈ (list_to_set (split "," raw) ∖ list_to_set possible_fields
                  : gset string)) as Hin by set_solver.
    rewrite Hunknown in Hin. set_solver.
  - apply (split_no_sep "," raw). set_solver.
Qed.

Lemma parser_result_sound_witness :
  ∃ raw, VStr "b,a" = VStr raw ∧ raw ≠ EmptyString ∧
    ({["a"; "b"]} : gset string) = list_to_set (split "," raw) ∧
    ({["a"; "b"]} : gset string) ≠ ∅ ∧
    (∀ t, t ∈ ({["a"; "b"]} : gset string) →
          t ∈ ["a"; "b"; "c"] ∧ contains "," t = false).
Proof.
  apply (parser_result_sound ["a"; "b"; "c"] (VStr "b,a") {["a"; "b"]}).
  vm_compute. reflexivity.
Defined.

(** X2: joining valid, comma-free names with commas and parsing the result
    gives back exactly the set of those names. *)
Theorem parser_accepts_joined_names (possible_fields names : list string) :
  join "," names ≠ EmptyString →
  (∀ t, t ∈ names → t ∈ possible_fields ∧ contains "," t = false) →
  FieldSetParser possible_fields (VStr (join "," names))
  = Ok (Some (list_to_set names)).
Proof.
  intros Hne Hnames. rewrite (FieldSetParser_nonempty _ _ Hne).
  rewrite split_of_join.
  - destruct (decide _) as [_|Hunknown]; [reflexivity|].
    exfalso. apply Hunknown. apply set_eq. intros t.
    specialize (Hnames t). set_solver.
  - intros ->. apply Hne. reflexivity.
  - intros t Ht. apply Hnames, Ht.
Qed.

Lemma parser_accepts_joined_names_witness :
  FieldSetParser ["id"; "name"; "owner"] (VStr (join "," ["owner"; "id"]))
  = Ok (Some (list_to_set ["owner"; "id"])).
Proof.
  apply (parser_accepts_joined_names ["id"; "name"; "owner"] ["owner"; "id"]).
  - vm_compute. discriminate.
  - intros t Ht. split.
    + revert Ht. rewrite !elem_of_cons, !elem_of_nil. intuition.
    + revert Ht. rewrite !elem_of_cons, elem_of_nil.
      intros [->|[->|[]]]; reflexivity.
Defined.

Lemma FieldSetParser_mono (possible_fields possible_fields' : list string)
    (value : pyval) (parsed : option (gset string)) :
  (∀ t, t ∈ possible_fields → t ∈ possible_fields') →
  FieldSetParser possible_fields value = Ok parsed →
  FieldSetParser possible_fields' value = Ok parsed.
Proof.
  intros Hsub. destruct value as [| |raw| | |]; try discriminate.
  destruct (decide (raw = EmptyString)) as [->|Hraw]; [trivial|].
  rewrite !(FieldSetParser_nonempty _ _ Hraw).
  destruct (decide _) as [Hunknown|_]; [|discriminate].
  intros [= <-].
  destruct (decide _) as [_|Hunknown']; [reflexivity|].
  exfalso. apply Hunknown'. apply set_eq. intros t. split; [|set_solver].
  intros Ht.
  assert (t ∈ (list_to_set (split "," raw) ∖ list_to_set possible_fields
                : gset string)) as Hin.
  { apply elem_of_difference in Ht as [Ht Hn]. apply elem_of_difference.
    split; [exact Ht|]. intros Hp. apply Hn.
    rewrite elem_of_list_to_set in Hp. rewrite elem_of_list_to_set. auto. }
  rewrite Hunknown in Hin. exact Hin.
Qed.

(** X3: a larger vocabulary accepts everything a smaller one accepts, with
    the same result. *)
Theorem parser_vocabulary_monotone (possible_fields possible_fields' : list string)
    (value : pyval) (parsed : option (gset string)) :
  (∀ t, t ∈ possible_fields → t ∈ possible_fields') →
  FieldSetParser possible_fields value = Ok parsed →
  FieldSetParser possible_fields' value = Ok parsed.
Proof. apply FieldSetParser_mono. Qed.

Lemma parser_vocabulary_monotone_witness :
  FieldSetParser ["a"; "b"; "c"] (VStr "a,b") = Ok (Some {["a"; "b"]}).
Proof.
  apply (parser_vocabulary_monotone ["a"; "b"] ["a"; "b"; "c"]).
  - intros t. rewrite !elem_of_cons. intuition.
  - vm_compute. reflexivity.
Defined.

(** ** FieldsetSchema: the two path vocabularies *)

Lemma elem_of_all_field_names (_fields : list (string * field))
    (meta : option Meta) (p : string) :
  p ∈ all_field_names (Fieldset _fields meta) ↔
  p ∈ _fields.*1 ∨
  ∃ n f nested_fs q,
    (n, f) ∈ _fields ∧ nested_schema f = Some nested_fs ∧
    q ∈ all_field_names nested_fs ∧ p = dotted n q.
Proof.
  cbn [all_field_names]. rewrite elem_of_app.
  apply or_iff_compat_l.
  rewrite list_elem_of_In, in_flat_map. split.
  - intros [[n f] [Hin Hp]]. apply list_elem_of_In in Hin.
    destruct (is_nested f); [|inversion Hp].
    rewrite with_nested_fieldset_schema in Hp.
    destruct (nested_schema f) as [nested_fs|] eqn:Hs; [|inversion Hp].
    apply list_elem_of_In, list_elem_of_fmap in Hp as [q [-> Hq]].
    exists n, f, nested_fs, q. auto.
  - intros (n & f & nested_fs & q & Hin & Hs & Hq & ->).
    exists (n, f). split; [apply list_elem_of_In, Hin|].
    rewrite (nested_schema_is_nested _ _ Hs).
    rewrite with_nested_fieldset_schema, Hs.
    apply list_elem_of_In, list_elem_of_fmap. eauto.
Qed.

Lemma elem_of_nested_field_names (_fields : list (string * field))
    (meta : option Meta) (p : string) :
  p ∈ nested_field_names (Fieldset _fields meta) ↔
  p ∈ _find_nested _fields ∨
  ∃ n f nested_fs q,
    (n, f) ∈ _fields ∧ nested_schema f = Some nested_fs ∧
    q ∈ nested_field_names nested_fs ∧ p = dotted n q.
Proof.
  cbn [nested_field_names]. rewrite list_elem_of_In, in_flat_map.
  rewrite elem_of_find_nested. split.
  - intros [[n f] [Hin Hp]]. apply list_elem_of_In in Hin.
    destruct (is_nested f) eqn:Hn; [|inversion Hp].
    apply list_elem_of_In, elem_of_cons in Hp as [->|Hp]; [left; eauto|].
    rewrite with_nested_fieldset_schema in Hp.
    destruct (nested_schema f) as [nested_fs|] eqn:Hs; [|inversion Hp].
    apply list_elem_of_fmap in Hp as [q [-> Hq]].
    right. exists n, f, nested_fs, q. auto.
  - intros [[f [Hin Hn]]|(n & f & nested_fs & q & Hin & Hs & Hq & ->)].
    + exists (p, f). split; [apply list_elem_of_In, Hin|].
      rewrite Hn. left. reflexivity.
    + exists (n, f). split; [apply list_elem_of_In, Hin|].
      rewrite (nested_schema_is_nested _ _ Hs).
      apply list_elem_of_In. right.
      rewrite with_nested_fieldset_schema, Hs.
      apply list_elem_of_fmap. eauto.
Qed.

(** X4: the addressable paths contain nothing but the declared names and
    the dotted paths into nested schemas: every path is a declared name, or
    [n.q] for a declaration [n] with a nested schema and an addressable path
    [q] of that schema. *)
Theorem all_field_names_only_declared (_fields : list (string * field))
    (meta : option Meta) (p : string) :
  p ∈ all_field_names (Fieldset _fields meta) →
  p ∈ _fields.*1 ∨
  ∃ n f nested_fs q,
    (n, f) ∈ _fields ∧ n ∈ _find_nested _fields ∧
    nested_schema f = Some nested_fs ∧
    q ∈ all_field_names nested_fs ∧ p = dotted n q.
Proof.
  intros Hp. apply elem_of_all_field_names in Hp
    as [Hp|(n & f & nested_fs & q & Hin & Hs & Hq & ->)]; [left; exact Hp|].
  right. exists n, f, nested_fs, q. repeat split; try assumption.
  apply elem_of_find_nested. exists f.
  split; [exact Hin|exact (nested_schema_is_nested _ _ Hs)].
Qed.

Lemma all_field_names_only_declared_witness :
  "owner.email" ∈ [("id", Sample.Raw); ("name", Sample.Raw);
                   ("owner", Sample.owner_field)].*1 ∨
  ∃ n f nested_fs q,
    (n, f) ∈ [("id", Sample.Raw); ("name", Sample.Raw);
              ("owner", Sample.owner_field)] ∧
    n ∈ _find_nested [("id", Sample.Raw); ("name", Sample.Raw);
                      ("owner", Sample.owner_field)] ∧
    nested_schema f = Some nested_fs ∧
    q ∈ all_field_names nested_fs ∧ "owner.email" = dotted n q.
Proof.
  apply (all_field_names_only_declared _ (Some DefaultMeta) "owner.email").
  compute_done.
Defined.

(** X5: the embeddable paths are exactly the nested names and the dotted
    paths [n.q] for a nested declaration [n] and an embeddable path [q] of
    its nested schema. *)
Theorem nested_field_names_spec (_fields : list (string * field))
    (meta : option Meta) (p : string) :
  p ∈ nested_field_names (Fieldset _fields meta) ↔
  p ∈ _find_nested _fields ∨
  ∃ n f nested_fs q,
    (n, f) ∈ _fields ∧ n ∈ _find_nested _fields ∧
    nested_schema f = Some nested_fs ∧
    q ∈ nested_field_names nested_fs ∧ p = dotted n q.
Proof.
  rewrite elem_of_nested_field_names. apply or_iff_compat_l. split.
  - intros (n & f & nested_fs & q & Hin & Hs & Hq & ->).
    exists n, f, nested_fs, q. repeat split; try assumption.
    apply elem_of_find_nested. exists f.
    split; [exact Hin|exact (nested_schema_is_nested _ _ Hs)].
  - intros (n & f & nested_fs & q & Hin & _ & Hs & Hq & ->).
    exists n, f, nested_fs, q. auto.
Qed.

Lemma nested_names_subset (self : fieldset) (p : string) :
  p ∈ nested_field_names self → p ∈ all_field_names self.
Proof.
  revert p. induction self as [_fields meta IH] using fieldset_nested_ind.
  intros p Hp. apply elem_of_nested_field_names in Hp
    as [Hp|(n & f & nested_fs & q & Hin & Hs & Hq & ->)].
  - apply elem_of_all_field_names. left.
    apply elem_of_find_nested in Hp as [f [Hin _]].
    apply list_elem_of_fmap. exists (p, f). auto.
  - apply elem_of_all_field_names. right.
    exists n, f, nested_fs, q. repeat split; try assumption.
    exact (IH n f nested_fs Hin Hs q Hq).
Qed.

(** X6: every embeddable path is an addressable field path: whatever the
    embed selector accepts, the fields selector accepts too, with the same
    result. *)
Theorem nested_names_are_field_names (self : fieldset) :
  (∀ p, p ∈ nested_field_names self → p ∈ all_field_names self) ∧
  ∀ value parsed,
    FieldSetParser (nested_field_names self) value = Ok parsed →
    FieldSetParser (all_field_names self) value = Ok parsed.
Proof.
  split; [apply nested_names_subset|].
  intros value parsed. apply FieldSetParser_mono, nested_names_subset.
Qed.

Lemma nested_names_are_field_names_witness :
  "owner" ∈ all_field_names (Sample.ThingFieldset DefaultMeta) ∧
  FieldSetParser (all_field_names (Sample.ThingFieldset DefaultMeta))
    (VStr "owner") = Ok (Some {["owner"]}).
Proof.
  destruct (nested_names_are_field_names (Sample.ThingFieldset DefaultMeta))
    as [Hnames Hparse].
  split.
  - apply Hnames. compute_done.
  - apply Hparse. vm_compute. reflexivity.
Defined.

(** ** RenderPlanBuilder: the entries of a plan *)

Lemma plan_loop_ext (body1 body2 : string → field → result (option field))
    (sel : gset string) (_fields : list (string * field)) :
  (∀ field f, (field, f) ∈ _fields → field ∈ sel →
              body1 field f = body2 field f) →
  plan_loop body1 sel _fields = plan_loop body2 sel _fields.
Proof.
  induction _fields as [|[field f] rest IH]; intros Hext; [reflexivity|].
  simpl. rewrite IH by (intros; apply Hext; [right|]; assumption).
  case_bool_decide; [|reflexivity].
  rewrite (Hext field f) by (assumption || left). reflexivity.
Qed.

Lemma plan_loop_lookup (body : string → field → result (option field))
    (sel : gset string) (_fields : list (string * field)) (p : plan)
    (name : string) (f : field) :
  NoDup _fields.*1 → (name, f) ∈ _fields → name ∈ sel →
  plan_loop body sel _fields = Ok p →
  ∃ entry, body name f = Ok entry ∧ assoc name p = Some entry.
Proof.
  revert p. induction _fields as [|[field f0] rest IH]; intros p Hnodup Hin Hsel.
  - inversion Hin.
  - simpl in Hnodup. apply NoDup_cons in Hnodup as [Hfresh Hnodup]. simpl.
    apply elem_of_cons in Hin as [Heq|Hin].
    + injection Heq as <- <-. rewrite bool_decide_eq_true_2 by assumption.
      destruct (body name f) as [entry|]; [|discriminate]. simpl.
      destruct (plan_loop body sel rest); [|discriminate]. simpl.
      intros [= <-]. exists entry. simpl. rewrite String.eqb_refl. auto.
    + assert (name ≠ field) as Hne.
      { intros ->. apply Hfresh. apply list_elem_of_fmap. exists (field, f). auto. }
      case_bool_decide.
      * destruct (body field f0) as [entry0|]; [|discriminate]. simpl.
        destruct (plan_loop body sel rest) as [p'|] eqn:Hrest; [|discriminate].
        simpl. intros [= <-].
        destruct (IH p' Hnodup Hin Hsel eq_refl) as [entry [Hb Ha]].
        exists entry. split; [exact Hb|]. simpl.
        destruct (String.eqb_spec name field); [contradiction|exact Ha].
      * apply IH; assumption.
Qed.

Lemma plan_loop_keys_exact (body : string → field → result (option field))
    (sel : gset string) (_fields : list (string * field)) (p : plan) :
  plan_loop body sel _fields = Ok p →
  p.*1 = filter (λ k, k ∈ sel) _fields.*1.
Proof.
  revert p. induction _fields as [|[field f] rest IH]; intros p; simpl.
  - intros [= <-]. reflexivity.
  - rewrite filter_cons. simpl. case_bool_decide as Hsel.
    + destruct (body field f) as [entry|]; [|discriminate]. simpl.
      destruct (plan_loop body sel rest) as [p'|]; [|discriminate]. simpl.
      intros [= <-]. rewrite decide_True by assumption. simpl.
      f_equal. apply IH. reflexivity.
    + rewrite decide_False by assumption. apply IH.
Qed.

Lemma plan_loop_error_inv (body : string → field → result (option field))
    (sel : gset string) (_fields : list (string * field)) (e : exn) :
  plan_loop body sel _fields = Err e →
  ∃ name f, (name, f) ∈ _fields ∧ name ∈ sel ∧ body name f = Err e.
Proof.
  induction _fields as [|[field f] rest IH]; simpl; [discriminate|].
  case_bool_decide as Hsel.
  - destruct (body field f) as [entry|e'] eqn:Hb; simpl.
    + destruct (plan_loop body sel rest) as [p'|e'']; simpl; [discriminate|].
      intros [= ->]. destruct (IH eq_refl) as (name & f' & Hin & Hs & He).
      exists name, f'. split; [right|]; auto.
    + intros [= ->]. exists field, f. split; [left|]; auto.
  - intros He. destruct (IH He) as (name & f' & Hin & Hs & Hb).
    exists name, f'. split; [right|]; auto.
Qed.

Lemma plan_loop_fails (body : string → field → result (option field))
    (sel : gset string) (_fields : list (string * field))
    (name : string) (f : field) (e : exn) :
  (name, f) ∈ _fields → name ∈ sel → body name f = Err e →
  ∃ e', plan_loop body sel _fields = Err e'.
Proof.
  induction _fields as [|[field f0] rest IH]; intros Hin Hsel Hb.
  - inversion Hin.
  - simpl. apply elem_of_cons in Hin as [Heq|Hin].
    + injection Heq as <- <-. rewrite bool_decide_eq_true_2 by assumption.
      rewrite Hb. simpl. eauto.
    + destruct (IH Hin Hsel Hb) as [e' He'].
      case_bool_decide; [|eauto].
      destruct (body field f0); simpl; [|eauto]. rewrite He'. simpl. eauto.
Qed.

(** The only exception that building a plan raises. *)
Lemma marshall_dict_error (self : fieldset)
    (selected_fields selected_embed : option (gset string)) (e : exn) :
  marshall_dict self selected_fields selected_embed = Err e →
  e = AttributeError.
Proof.
  revert selected_fields selected_embed e.
  induction self as [_fields meta IH] using fieldset_nested_ind.
  intros sf se e. cbn [marshall_dict]. intros He.
  apply plan_loop_error_inv in He as (name & f & Hin & _ & Hb).
  revert Hb. case_bool_decide; [|discriminate].
  case_bool_decide.
  - destruct f as [| | [nfs|] pk d a an pf|c ? ?|]; try (intros [= <-]; reflexivity).
    + destruct (marshall_dict nfs _ _) as [p|e'] eqn:Hp; simpl; [discriminate|].
      intros [= <-]. exact (IH name _ nfs Hin eq_refl _ _ _ Hp).
    + destruct c as [| | [nfs|] pk d a an pf| |]; try (intros [= <-]; reflexivity).
      destruct (marshall_dict nfs _ _) as [p|e'] eqn:Hp; simpl; [discriminate|].
      intros [= <-]. exact (IH name _ nfs Hin eq_refl _ _ _ Hp).
  - destruct f as [| | ? [pk|] ? ? ? ?| |]; simpl; try discriminate;
      intros [= <-]; reflexivity.
Qed.

Lemma contains_dotted (n c : string) : contains "." (dotted n c) = true.
Proof.
  unfold dotted. induction n as [|a n IH]; [reflexivity|]. simpl.
  destruct (Ascii.eqb a "."); [reflexivity|exact IH].
Qed.

Lemma split1_dotted (n c : string) :
  contains "." n = false → split1 "." (dotted n c) = (n, c).
Proof.
  unfold dotted. induction n as [|a n IH]; [reflexivity|]. simpl.
  destruct (Ascii.eqb a "."); [discriminate|]. intros Hn.
  rewrite (IH Hn). reflexivity.
Qed.

Lemma split1_inv (p n c : string) :
  contains "." p = true → split1 "." p = (n, c) →
  p = dotted n c ∧ contains "." n = false.
Proof.
  unfold dotted. revert n. induction p as [|a p IH]; intros n; [discriminate|].
  simpl. destruct (Ascii.eqb_spec a ".") as [->|Hne].
  - intros _ [= <- <-]. split; reflexivity.
  - intros Hp. destruct (split1 "." p) as [h t] eqn:Hs. intros [= <- <-].
    destruct (IH h Hp eq_refl) as [-> Hh]. split; [reflexivity|].
    simpl. destruct (Ascii.eqb_spec a "."); [contradiction|exact Hh].
Qed.

(** What the two filter loops collect under a name. *)
Lemma filter_dotted_spec (paths : gset string) (field rest : string) :
  rest ∈ filter_dotted paths !!! field ↔
  ∃ p, p ∈ paths ∧ contains "." p = true ∧ split1 "." p = (field, rest).
Proof.
  unfold filter_dotted. revert field rest.
  apply (set_fold_ind_L
    (λ (filtered : gmap string (gset string)) (X : gset string),
       ∀ field rest, rest ∈ filtered !!! field ↔
         ∃ p, p ∈ X ∧ contains "." p = true ∧ split1 "." p = (field, rest))).
  - intros field rest. rewrite lookup_total_empty. set_solver.
  - intros x X filtered Hx IH field rest.
    destruct (contains "." x) eqn:Hdot; simpl.
    + destruct (split1 "." x) as [g r] eqn:Hs.
      destruct (decide (g = field)) as [->|Hne].
      * rewrite lookup_total_insert_eq, elem_of_union, elem_of_singleton, IH.
        split.
        -- intros [->|(p & Hp & Hd & Hsp)].
           ++ exists x. split; [set_solver|auto].
           ++ exists p. split; [set_solver|auto].
        -- intros (p & Hp & Hd & Hsp).
           apply elem_of_union in Hp as [Hp|Hp].
           ++ apply elem_of_singleton in Hp as ->. left. congruence.
           ++ right. eauto.
      * rewrite lookup_total_insert_ne by assumption. rewrite IH. split.
        -- intros (p & Hp & Hd & Hsp). exists p. split; [set_solver|auto].
        -- intros (p & Hp & Hd & Hsp).
           apply elem_of_union in Hp as [Hp|Hp]; [|eauto].
           apply elem_of_singleton in Hp as ->. congruence.
    + rewrite IH. split.
      * intros (p & Hp & Hd & Hsp). exists p. split; [set_solver|auto].
      * intros (p & Hp & Hd & Hsp).
        apply elem_of_union in Hp as [Hp|Hp]; [|eauto].
        apply elem_of_singleton in Hp as ->. congruence.
Qed.

(** [marshall_dict] is its loop over the direct selection, with
    [plan_entry] as the body. *)
Lemma marshall_dict_unfold (_fields : list (string * field))
    (meta : option Meta) (sf se : option (gset string)) :
  let self := Fieldset _fields meta in
  marshall_dict self sf se =
  plan_loop
    (plan_entry _fields (embed_direct self sf se)
       (filter_dotted (effective_fields self sf ∖ fields_direct self sf))
       (filter_dotted (effective_embed self se ∖ embed_direct self sf se)))
    (fields_direct self sf) _fields.
Proof. reflexivity. Qed.

Lemma plan_entry_ext (_fields : list (string * field)) (embed : gset string)
    (fn fn' fe fe' : gmap string (gset string)) (f : field) (name : string) :
  fn !!! name = fn' !!! name → fe !!! name = fe' !!! name →
  plan_entry _fields embed fn fe name f
  = plan_entry _fields embed fn' fe' name f.
Proof. unfold plan_entry. intros -> ->. reflexivity. Qed.

Lemma elem_of_fields_direct (_fields : list (string * field))
    (meta : option Meta) (sf : option (gset string)) (k : string) :
  k ∈ fields_direct (Fieldset _fields meta) sf ↔
  k ∈ effective_fields (Fieldset _fields meta) sf ∧ k ∈ _fields.*1.
Proof.
  unfold fields_direct, declared.
  rewrite elem_of_intersection, elem_of_list_to_set. reflexivity.
Qed.

(** X7: a plan has an entry for every declared name that is in the
    selection (after the defaults are substituted) and no other entry, and
    only one entry for each name. *)
Theorem plan_keys_exact (self : fieldset)
    (selected_fields selected_embed : option (gset string)) (p : plan) :
  marshall_dict self selected_fields selected_embed = Ok p →
  (∀ k, k ∈ p.*1 ↔
        k ∈ effective_fields self selected_fields ∧ k ∈ declared self) ∧
  (NoDup (declared self) → NoDup p.*1).
Proof.
  destruct self as [_fields meta]. rewrite marshall_dict_unfold. intros Hp.
  apply plan_loop_keys_exact in Hp. rewrite Hp. split.
  - intros k. rewrite list_elem_of_filter, elem_of_fields_direct.
    simpl. tauto.
  - apply NoDup_filter.
Qed.

Lemma plan_keys_exact_witness :
  ∃ p, marshall_dict (Sample.ThingFieldset DefaultMeta)
         (Some {["owner"; "id"; "nope"]}) None = Ok p ∧
       "owner" ∈ p.*1 ∧ ("nope" ∉ p.*1) ∧ ("name" ∉ p.*1) ∧ NoDup p.*1.
Proof.
  destruct (marshall_dict (Sample.ThingFieldset DefaultMeta)
              (Some {["owner"; "id"; "nope"]}) None) as [p|e] eqn:Hp;
    [|vm_compute in Hp; discriminate].
  exists p. split; [reflexivity|].
  destruct (plan_keys_exact _ _ _ _ Hp) as [Hkeys Hnodup].
  split; [|split; [|split]].
  - apply Hkeys. split; compute_done.
  - rewrite Hkeys. intros [_ Hd]. revert Hd. compute_done.
  - rewrite Hkeys. intros [Hs _]. revert Hs. compute_done.
  - apply Hnodup. compute_done.
Defined.

(** X8: a selected declaration that is not nested is copied into the plan
    as it is. *)
Theorem plain_field_copied (_fields : list (string * field))
    (meta : option Meta) (selected_fields selected_embed : option (gset string))
    (p : plan) (name : string) (f : field) :
  NoDup _fields.*1 →
  (name, f) ∈ _fields →
  name ∉ _find_nested _fields →
  name ∈ effective_fields (Fieldset _fields meta) selected_fields →
  marshall_dict (Fieldset _fields meta) selected_fields selected_embed = Ok p →
  assoc name p = Some (Some f).
Proof.
  intros Hnodup Hin Hplain Hsel. rewrite marshall_dict_unfold. intros Hp.
  assert (name ∈ fields_direct (Fieldset _fields meta) selected_fields) as Hd.
  { apply elem_of_fields_direct. split; [exact Hsel|].
    apply list_elem_of_fmap. exists (name, f). auto. }
  destruct (plan_loop_lookup _ _ _ _ name f Hnodup Hin Hd Hp)
    as [entry [Hentry Hassoc]].
  unfold plan_entry in Hentry.
  rewrite bool_decide_eq_false_2 in Hentry by assumption.
  injection Hentry as <-. exact Hassoc.
Qed.

Lemma plain_field_copied_witness :
  ∃ p, marshall_dict (Sample.ThingFieldset DefaultMeta) (Some {["name"]}) None
       = Ok p ∧ assoc "name" p = Some (Some Sample.Raw).
Proof.
  destruct (marshall_dict (Sample.ThingFieldset DefaultMeta)
              (Some {["name"]}) None) as [p|e] eqn:Hp;
    [|vm_compute in Hp; discriminate].
  exists p. split; [reflexivity|].
  refine (plain_field_copied _ _ _ _ p "name" Sample.Raw _ _ _ _ Hp).
  - compute_done.
  - right. left.
  - compute_done.
  - compute_done.
Defined.

(** X9: a selected nested declaration that is not chosen for embedding is
    replaced by its key field, the adapter reading the plain key with the
    declaration's default, attribute and plain-key formatter, or by nothing
    when no plain key is configured. *)
Theorem unembedded_nested_is_key (_fields : list (string * field))
    (meta : option Meta) (selected_fields selected_embed : option (gset string))
    (p : plan) (name : string) (nested : option fieldset)
    (plain_key : option string) (default : pyval) (attribute : option string)
    (allow_none : bool) (plain_field : option formatter) :
  let self := Fieldset _fields meta in
  NoDup _fields.*1 →
  (name, OptionalNestedField nested plain_key default attribute allow_none
           plain_field) ∈ _fields →
  name ∈ effective_fields self selected_fields →
  name ∉ effective_embed self selected_embed →
  marshall_dict self selected_fields selected_embed = Ok p →
  assoc name p =
    Some (match plain_key with
          | Some member =>
              Some (ObjectMember
                      (ObjectMemberField.mk member default attribute plain_field))
          | None => None
          end).
Proof.
  intros self Hnodup Hin Hsel Hemb. unfold self.
  rewrite marshall_dict_unfold. intros Hp.
  assert (name ∈ fields_direct (Fieldset _fields meta) selected_fields) as Hd.
  { apply elem_of_fields_direct. split; [exact Hsel|].
    apply list_elem_of_fmap. eexists (name, _). eauto. }
  destruct (plan_loop_lookup _ _ _ _ name _ Hnodup Hin Hd Hp)
    as [entry [Hentry Hassoc]].
  unfold plan_entry in Hentry.
  rewrite bool_decide_eq_true_2 in Hentry
    by (apply elem_of_find_nested; eexists; split; [exact Hin|reflexivity]).
  rewrite bool_decide_eq_false_2 in Hentry.
  - rewrite Hassoc. destruct plain_key; injection Hentry as <-; reflexivity.
  - unfold embed_direct. rewrite elem_of_intersection. tauto.
Qed.

Lemma unembedded_nested_is_key_witness :
  ∃ p, marshall_dict (Sample.ThingFieldset DefaultMeta)
         (Some {["owner"]}) (Some {["name"]}) = Ok p ∧
       assoc "owner" p =
         Some (Some (ObjectMember (ObjectMemberField.mk "id" VNone None None))).
Proof.
  destruct (marshall_dict (Sample.ThingFieldset DefaultMeta)
              (Some {["owner"]}) (Some {["name"]})) as [p|e] eqn:Hp;
    [|vm_compute in Hp; discriminate].
  exists p. split; [reflexivity|].
  refine (unembedded_nested_is_key _ _ _ _ p "owner" _ (Some "id") _ _ _ _
            _ _ _ _ Hp).
  - compute_done.
  - right. right. left.
  - compute_done.
  - compute_done.
Defined.

(** The child selection kept for a declared name: the remainders of the
    selected paths under that name. *)
Lemma child_selection (_fields : list (string * field))
    (selected direct : gset string) (name c : string) :
  (∀ k, k ∈ _fields.*1 → contains "." k = false) →
  direct ⊆ list_to_set _fields.*1 →
  name ∈ _fields.*1 →
  c ∈ filter_dotted (selected ∖ direct) !!! name ↔ dotted name c ∈ selected.
Proof.
  intros Hplain Hdirect Hname. rewrite filter_dotted_spec. split.
  - intros (p & Hp & Hdot & Hsplit).
    destruct (split1_inv _ _ _ Hdot Hsplit) as [-> _]. set_solver.
  - intros Hsel. exists (dotted name c). split; [|split].
    + apply elem_of_difference. split; [exact Hsel|]. intros Hd.
      apply Hdirect, elem_of_list_to_set, Hplain in Hd.
      rewrite contains_dotted in Hd. discriminate.
    + apply contains_dotted.
    + apply split1_dotted, Hplain, Hname.
Qed.

(** The entry of a directly selected declaration is what the loop body
    builds for it. *)
Lemma selected_entry (_fields : list (string * field)) (meta : option Meta)
    (sf se : option (gset string)) (p : plan) (name : string) (f : field) :
  let self := Fieldset _fields meta in
  NoDup _fields.*1 →
  (name, f) ∈ _fields →
  name ∈ effective_fields self sf →
  marshall_dict self sf se = Ok p →
  ∃ entry, assoc name p = Some entry ∧
    plan_entry _fields (embed_direct self sf se)
      (filter_dotted (effective_fields self sf ∖ fields_direct self sf))
      (filter_dotted (effective_embed self se ∖ embed_direct self sf se))
      name f = Ok entry.
Proof.
  intros self Hnodup Hin Hsel. unfold self.
  rewrite marshall_dict_unfold. intros Hp.
  assert (name ∈ fields_direct (Fieldset _fields meta) sf) as Hd.
  { apply elem_of_fields_direct. split; [exact Hsel|].
    apply list_elem_of_fmap. exists (name, f). auto. }
  destruct (plan_loop_lookup _ _ _ _ name f Hnodup Hin Hd Hp)
    as [entry [Hentry Hassoc]].
  eauto.
Qed.

Lemma elem_of_embed_direct (_fields : list (string * field))
    (meta : option Meta) (sf se : option (gset string)) (name : string)
    (f : field) :
  let self := Fieldset _fields meta in
  (name, f) ∈ _fields →
  name ∈ effective_fields self sf →
  name ∈ effective_embed self se →
  name ∈ embed_direct self sf se.
Proof.
  intros self Hin Hsel Hemb. unfold embed_direct.
  apply elem_of_intersection. split; [exact Hemb|].
  apply elem_of_fields_direct. split; [exact Hsel|].
  apply list_elem_of_fmap. exists (name, f). auto.
Qed.

(** X10: a selected nested declaration chosen for embedding becomes a
    nested-object entry carrying the declaration's null flag, default and
    attribute; its child plan is the plan of the nested schema for the
    remainders [c] of the selected paths [name.c] and of the embed paths
    [name.c]. *)
Theorem embedded_nested_is_child_plan (_fields : list (string * field))
    (meta : option Meta) (selected_fields selected_embed : option (gset string))
    (p : plan) (name : string) (nested_fs : fieldset)
    (plain_key : option string) (default : pyval) (attribute : option string)
    (allow_none : bool) (plain_field : option formatter) :
  let self := Fieldset _fields meta in
  NoDup _fields.*1 →
  (∀ k, k ∈ _fields.*1 → contains "." k = false) →
  (name, OptionalNestedField (Some nested_fs) plain_key default attribute
           allow_none plain_field) ∈ _fields →
  name ∈ effective_fields self selected_fields →
  name ∈ effective_embed self selected_embed →
  marshall_dict self selected_fields selected_embed = Ok p →
  ∃ child_fields child_embed child,
    (∀ c, c ∈ child_fields ↔ dotted name c ∈ effective_fields self selected_fields) ∧
    (∀ c, c ∈ child_embed ↔ dotted name c ∈ effective_embed self selected_embed) ∧
    marshall_dict nested_fs (Some child_fields) (Some child_embed) = Ok child ∧
    assoc name p = Some (Some (fields_Nested child allow_none default attribute)).
Proof.
  intros self Hnodup Hplain Hin Hsel Hemb Hp.
  destruct (selected_entry _ _ _ _ _ _ _ Hnodup Hin Hsel Hp)
    as (entry & Hassoc & Hentry).
  unfold plan_entry in Hentry.
  rewrite bool_decide_eq_true_2 in Hentry
    by (apply elem_of_find_nested; eexists; split; [exact Hin|reflexivity]).
  rewrite bool_decide_eq_true_2 in Hentry
    by exact (elem_of_embed_direct _ _ _ _ _ _ Hin Hsel Hemb).
  destruct (marshall_dict nested_fs _ _) as [child|] eqn:Hchild; [|discriminate].
  injection Hentry as <-.
  assert (name ∈ _fields.*1) as Hname
    by (apply list_elem_of_fmap; eexists (name, _); eauto).
  eexists _, _, child. split; [|split; [|split; [exact Hchild|exact Hassoc]]].
  - intros c. apply (child_selection _fields); try assumption.
    unfold fields_direct, declared. set_solver.
  - intros c. apply (child_selection _fields); try assumption.
    unfold embed_direct, fields_direct, declared. set_solver.
Qed.

Lemma embedded_nested_is_child_plan_witness :
  ∃ p child_fields child_embed child,
    marshall_dict (Sample.ThingFieldset DefaultMeta)
      (Some {["owner"; "owner.email"]}) (Some {["owner"]}) = Ok p ∧
    (∀ c, c ∈ child_fields ↔
          dotted "owner" c ∈ ({["owner"; "owner.email"]} : gset string)) ∧
    marshall_dict (Sample.OwnerFieldset DefaultMeta)
      (Some child_fields) (Some child_embed) = Ok child ∧
    assoc "owner" p = Some (Some (fields_Nested child false VNone None)).
Proof.
  destruct (marshall_dict (Sample.ThingFieldset DefaultMeta)
              (Some {["owner"; "owner.email"]}) (Some {["owner"]}))
    as [p|e] eqn:Hp; [|vm_compute in Hp; discriminate].
  destruct (embedded_nested_is_child_plan
              [("id", Sample.Raw); ("name", Sample.Raw);
               ("owner", Sample.owner_field)] (Some DefaultMeta)
              (Some {["owner"; "owner.email"]}) (Some {["owner"]}) p "owner"
              (Sample.OwnerFieldset DefaultMeta) (Some "id") VNone None false None)
    as (cf & ce & child & Hcf & Hce & Hchild & Hassoc).
  - compute_done.
  - intros k Hk. revert Hk. simpl. rewrite !elem_of_cons, elem_of_nil.
    intros [->|[->|[->|[]]]]; reflexivity.
  - right. right. left.
  - compute_done.
  - compute_done.
  - exact Hp.
  - exists p, cf, ce, child. repeat split; try assumption; apply Hcf.
Defined.

(** X11: the same for a list of nested declarations: the entry is a list
    whose container is the nested-object entry, with the keywords of the
    contained declaration; the list's own default and attribute are not
    carried over. *)
Theorem embedded_list_is_list_of_child_plan (_fields : list (string * field))
    (meta : option Meta) (selected_fields selected_embed : option (gset string))
    (p : plan) (name : string) (nested_fs : fieldset)
    (plain_key : option string) (default list_default : pyval)
    (attribute list_attribute : option string)
    (allow_none : bool) (plain_field : option formatter) :
  let self := Fieldset _fields meta in
  NoDup _fields.*1 →
  (∀ k, k ∈ _fields.*1 → contains "." k = false) →
  (name, fields_List
           (OptionalNestedField (Some nested_fs) plain_key default attribute
              allow_none plain_field) list_default list_attribute) ∈ _fields →
  name ∈ effective_fields self selected_fields →
  name ∈ effective_embed self selected_embed →
  marshall_dict self selected_fields selected_embed = Ok p →
  ∃ child_fields child_embed child,
    (∀ c, c ∈ child_fields ↔ dotted name c ∈ effective_fields self selected_fields) ∧
    (∀ c, c ∈ child_embed ↔ dotted name c ∈ effective_embed self selected_embed) ∧
    marshall_dict nested_fs (Some child_fields) (Some child_embed) = Ok child ∧
    assoc name p =
      Some (Some (fields_List (fields_Nested child allow_none default attribute)
                    VNone None)).
Proof.
  intros self Hnodup Hplain Hin Hsel Hemb Hp.
  destruct (selected_entry _ _ _ _ _ _ _ Hnodup Hin Hsel Hp)
    as (entry & Hassoc & Hentry).
  unfold plan_entry in Hentry.
  rewrite bool_decide_eq_true_2 in Hentry
    by (apply elem_of_find_nested; eexists; split; [exact Hin|reflexivity]).
  rewrite bool_decide_eq_true_2 in Hentry
    by exact (elem_of_embed_direct _ _ _ _ _ _ Hin Hsel Hemb).
  destruct (marshall_dict nested_fs _ _) as [child|] eqn:Hchild; [|discriminate].
  injection Hentry as <-.
  assert (name ∈ _fields.*1) as Hname
    by (apply list_elem_of_fmap; eexists (name, _); eauto).
  eexists _, _, child. split; [|split; [|split; [exact Hchild|exact Hassoc]]].
  - intros c. apply (child_selection _fields); try assumption.
    unfold fields_direct, declared. set_solver.
  - intros c. apply (child_selection _fields); try assumption.
    unfold embed_direct, fields_direct, declared. set_solver.
Qed.

Lemma embedded_list_is_list_of_child_plan_witness :
  ∃ p child_fields child_embed child,
    marshall_dict Sample.ThreadFieldset
      (Some {["posts"; "posts.body"]}) None = Ok p ∧
    (∀ c, c ∈ child_fields ↔
          dotted "posts" c ∈ ({["posts"; "posts.body"]} : gset string)) ∧
    marshall_dict Sample.PostFieldset (Some child_fields) (Some child_embed)
      = Ok child ∧
    assoc "posts" p =
      Some (Some (fields_List (fields_Nested child false VNone None) VNone None)).
Proof.
  destruct (marshall_dict Sample.ThreadFieldset
              (Some {["posts"; "posts.body"]}) None)
    as [p|e] eqn:Hp; [|vm_compute in Hp; discriminate].
  destruct (embedded_list_is_list_of_child_plan
              [("posts", Sample.posts_field); ("title", Sample.Raw)]
              (Some DefaultMeta) (Some {["posts"; "posts.body"]}) None p "posts"
              Sample.PostFieldset (Some "id") VNone VNone None None false None)
    as (cf & ce & child & Hcf & Hce & Hchild & Hassoc).
  - compute_done.
  - intros k Hk. revert Hk. simpl. rewrite !elem_of_cons, elem_of_nil.
    intros [->|[->|[]]]; reflexivity.
  - left.
  - compute_done.
  - compute_done.
  - exact Hp.
  - exists p, cf, ce, child. repeat split; try assumption; apply Hcf.
Defined.

(** X12: a list of nested declarations has no key field: when such a
    declaration is selected but not chosen for embedding, building the plan
    raises [AttributeError], whatever else is selected. *)
Theorem unembedded_list_fails (_fields : list (string * field))
    (meta : option Meta) (selected_fields selected_embed : option (gset string))
    (name : string) (container : field) (list_default : pyval)
    (list_attribute : option string) :
  let self := Fieldset _fields meta in
  (name, fields_List container list_default list_attribute) ∈ _fields →
  _optional_nested container = true →
  name ∈ effective_fields self selected_fields →
  name ∉ effective_embed self selected_embed →
  marshall_dict self selected_fields selected_embed = Err AttributeError.
Proof.
  intros self Hin Hc Hsel Hemb.
  assert (∃ e, marshall_dict self selected_fields selected_embed = Err e)
    as [e He].
  { unfold self. rewrite marshall_dict_unfold.
    apply (plan_loop_fails _ _ _ name _ AttributeError Hin).
    - apply elem_of_fields_direct. split; [exact Hsel|].
      apply list_elem_of_fmap. eexists (name, _). eauto.
    - unfold plan_entry.
      rewrite bool_decide_eq_true_2
        by (apply elem_of_find_nested; eexists; split; [exact Hin|];
            unfold is_nested; rewrite Hc; reflexivity).
      rewrite bool_decide_eq_false_2; [reflexivity|].
      unfold embed_direct. rewrite elem_of_intersection. tauto. }
  rewrite He. f_equal. exact (marshall_dict_error _ _ _ _ He).
Qed.

Lemma unembedded_list_fails_witness :
  marshall_dict Sample.ThreadFieldset (Some {["posts"; "title"]})
    (Some {["title"]}) = Err AttributeError.
Proof.
  apply (unembedded_list_fails
           [("posts", Sample.posts_field); ("title", Sample.Raw)]
           (Some DefaultMeta) (Some {["posts"; "title"]}) (Some {["title"]})
           "posts"
           (OptionalNestedField (Some Sample.PostFieldset) (Some "id") VNone
              None false None) VNone None).
  - left.
  - reflexivity.
  - compute_done.
  - compute_done.
Defined.

Lemma plan_loop_plain (body : string → field → result (option field))
    (selected keys : gset string) (_fields : list (string * field)) :
  (∀ nf, nf ∈ _fields → nf.1 ∈ keys ∧ body nf.1 nf.2 = Ok (Some nf.2)) →
  plan_loop body (selected ∩ keys) _fields =
  Ok ((λ nf, (nf.1, Some nf.2)) <$> filter (λ nf, nf.1 ∈ selected) _fields).
Proof.
  induction _fields as [|[name f] rest IH]; intros Hall; [reflexivity|].
  simpl. rewrite filter_cons. simpl.
  destruct (Hall (name, f)) as [Hkey Hbody]; [left|]. simpl in *.
  rewrite IH by (intros; apply Hall; right; assumption).
  destruct (decide (name ∈ selected)) as [Hsel|Hsel].
  - rewrite bool_decide_eq_true_2 by set_solver. rewrite Hbody. reflexivity.
  - rewrite bool_decide_eq_false_2 by set_solver. reflexivity.
Qed.

(** X13: for a schema without nested declarations the plan is the list of
    the selected declarations, each copied as it is; the embed selection
    plays no part and building the plan cannot fail. *)
Theorem flat_schema_plan (_fields : list (string * field))
    (meta : option Meta) (selected_fields selected_embed : option (gset string)) :
  let self := Fieldset _fields meta in
  _find_nested _fields = [] →
  marshall_dict self selected_fields selected_embed =
  Ok ((λ nf, (nf.1, Some nf.2)) <$>
      filter (λ nf, nf.1 ∈ effective_fields self selected_fields) _fields).
Proof.
  intros self Hflat. unfold self. rewrite marshall_dict_unfold.
  unfold fields_direct. apply plan_loop_plain. intros [name f] Hin. split.
  - apply elem_of_list_to_set, list_elem_of_fmap. exists (name, f). auto.
  - unfold plan_entry. rewrite Hflat.
    rewrite bool_decide_eq_false_2 by apply not_elem_of_nil. reflexivity.
Qed.

Lemma flat_schema_plan_witness :
  marshall_dict Sample.PostFieldset (Some {["id"]}) (Some {["anything"]})
  = Ok [("id", Some Sample.Raw)].
Proof.
  rewrite (flat_schema_plan [("body", Sample.Raw); ("id", Sample.Raw)]
             (Some DefaultMeta) (Some {["id"]}) (Some {["anything"]}) eq_refl).
  vm_compute. reflexivity.
Defined.

Lemma effective_nonempty (self : fieldset) (selected : gset string) :
  selected ≠ ∅ → effective_fields self (Some selected) = selected.
Proof.
  intros Hne. apply set_choose_L in Hne as [x Hx].
  exact (or_default_nonempty _ _ x Hx).
Qed.

(** A path that is neither a declared name nor a dotted path under a
    selected name plays no part in the plan. *)
Lemma marshall_dict_ignores_path (_fields : list (string * field))
    (meta : option Meta) (selected_fields : gset string)
    (selected_embed : option (gset string)) (path : string) :
  let self := Fieldset _fields meta in
  selected_fields ≠ ∅ →
  path ∉ _fields.*1 →
  contains "." path = false ∨ (split1 "." path).1 ∉ selected_fields →
  marshall_dict self (Some ({[path]} ∪ selected_fields)) selected_embed =
  marshall_dict self (Some selected_fields) selected_embed.
Proof.
  intros self Hne Hpath Hirr. unfold self. rewrite !marshall_dict_unfold.
  assert (fields_direct (Fieldset _fields meta) (Some ({[path]} ∪ selected_fields))
          = fields_direct (Fieldset _fields meta) (Some selected_fields)) as Hfd.
  { unfold fields_direct. rewrite !effective_nonempty by set_solver.
    apply set_eq. intros k. unfold declared.
    rewrite !elem_of_intersection, elem_of_union, elem_of_singleton,
      elem_of_list_to_set.
    split; [|tauto]. intros [[->|Hk] Hd]; [contradiction|tauto]. }
  unfold embed_direct. rewrite Hfd.
  apply plan_loop_ext. intros name f Hin Hsel.
  apply plan_entry_ext; [|reflexivity].
  apply elem_of_fields_direct in Hsel as [Hsel _].
  rewrite effective_nonempty in Hsel by assumption.
  rewrite !effective_nonempty by set_solver.
  apply set_eq. intros r. rewrite !filter_dotted_spec. split.
  - intros (q & Hq & Hdot & Hsplit). exists q. split; [|auto].
    apply elem_of_difference in Hq as [Hq Hnd].
    apply elem_of_difference. split; [|exact Hnd].
    apply elem_of_union in Hq as [Hq|Hq]; [|exact Hq].
    apply elem_of_singleton in Hq as ->.
    destruct Hirr as [Hirr|Hirr]; [congruence|].
    rewrite Hsplit in Hirr. contradiction.
  - intros (q & Hq & Hdot & Hsplit). exists q. split; [|auto].
    set_solver.
Qed.


(** X14: adding to a non-empty selection a path that is not a declared name
    and is not a dotted path under a selected name changes nothing: unknown
    names and sub-paths of unselected fields are ignored, not reported. *)
Theorem irrelevant_path_ignored (_fields : list (string * field))
    (meta : option Meta) (selected_fields : gset string)
    (selected_embed : option (gset string)) (path : string) :
  let self := Fieldset _fields meta in
  selected_fields ≠ ∅ →
  path ∉ _fields.*1 →
  contains "." path = false ∨ (split1 "." path).1 ∉ selected_fields →
  marshall_dict self (Some ({[path]} ∪ selected_fields)) selected_embed =
  marshall_dict self (Some selected_fields) selected_embed.
Proof.
  intros self. exact (marshall_dict_ignores_path _fields meta selected_fields
                       selected_embed path).
Qed.

Lemma irrelevant_path_ignored_witness :
  marshall_dict (Sample.ThingFieldset DefaultMeta)
    (Some ({["owner.email"]} ∪ {["name"]})) None =
  marshall_dict (Sample.ThingFieldset DefaultMeta) (Some {["name"]}) None.
Proof.
  apply (irrelevant_path_ignored
           [("id", Sample.Raw); ("name", Sample.Raw);
            ("owner", Sample.owner_field)] (Some DefaultMeta)
           {["name"]} None "owner.email").
  - compute_done.
  - compute_done.
  - right. compute_done.
Defined.

(** ** RenderPlanBuilder: a dotted path without its parent *)

(** C9: for every schema, when the selection contains a dotted path [f.c]
    but not [f] itself, a plan that is built has no entry for [f]; an error,
    if there is one, comes from the entry of a selected nested declaration
    other than [f]; and when [f] is the part before the first dot and [f.c]
    is not itself a declared name, the result, plan or error, is the one
    that the selection without [f.c] gives: the dotted path is dropped, its
    child paths are never consulted. *)
Theorem dotted_without_parent_dropped (_fields : list (string * field))
    (meta : option Meta) (selected_fields : gset string)
    (selected_embed : option (gset string)) (f c : string) :
  let self := Fieldset _fields meta in
  dotted f c ∈ selected_fields →
  f ∉ selected_fields →
  (∀ p, marshall_dict self (Some selected_fields) selected_embed = Ok p →
        (f ∉ p.*1) ∧ assoc f p = None) ∧
  (∀ e, marshall_dict self (Some selected_fields) selected_embed = Err e →
        ∃ g, g ∈ selected_fields ∧ g ≠ f ∧ g ∈ _find_nested _fields) ∧
  (contains "." f = false →
   dotted f c ∉ _fields.*1 →
   selected_fields ∖ {[dotted f c]} ≠ ∅ →
   marshall_dict self (Some selected_fields) selected_embed =
   marshall_dict self (Some (selected_fields ∖ {[dotted f c]})) selected_embed).
Proof.
  intros self Hdotted Hf. split; [|split].
  - intros p Hp.
    assert (f ∉ p.*1) as Hnotin.
    { intros Hin. apply Hf.
      pose proof (marshall_dict_keys _ _ _ _ Hp f Hin) as Hsel.
      rewrite (or_default_nonempty _ _ _ Hdotted) in Hsel. exact Hsel. }
    split; [exact Hnotin|].
    clear -Hnotin. induction p as [|[k e] p IH]; [reflexivity|]. simpl.
    destruct (String.eqb_spec f k) as [->|Hne].
    + exfalso. apply Hnotin. left.
    + apply IH. intros Hin. apply Hnotin. right. exact Hin.
  - intros e He. unfold self in He. rewrite marshall_dict_unfold in He.
    apply plan_loop_error_inv in He as (g & fld & _ & Hsel & Hentry).
    apply elem_of_fields_direct in Hsel as [Hsel _].
    rewrite effective_nonempty in Hsel by set_solver.
    exists g. split; [exact Hsel|]. split; [intros ->; contradiction|].
    unfold plan_entry in Hentry. revert Hentry.
    case_bool_decide; [auto|discriminate].
  - intros Hfirst Hundeclared Hrest.
    rewrite (union_difference_L {[dotted f c]} selected_fields) at 1
      by set_solver.
    apply marshall_dict_ignores_path; [exact Hrest|exact Hundeclared|].
    right. rewrite (split1_dotted _ _ Hfirst). simpl. set_solver.
Qed.

Lemma dotted_without_parent_dropped_witness :
  (∃ p, marshall_dict Sample.ThreadFieldset
          (Some {["title"; "posts.body"]}) (Some {["posts"]}) = Ok p ∧
        assoc "posts" p = None) ∧
  marshall_dict Sample.ThreadFieldset
    (Some {["title"; "posts.body"]}) (Some {["posts"]})
  = marshall_dict Sample.ThreadFieldset
      (Some ({["title"; "posts.body"]} ∖ {["posts.body"]})) (Some {["posts"]}).
Proof.
  destruct (dotted_without_parent_dropped
              [("posts", Sample.posts_field); ("title", Sample.Raw)]
              (Some DefaultMeta) {["title"; "posts.body"]}
              (Some {["posts"]}) "posts" "body")
    as (Hdropped & _ & Hsame).
  - compute_done.
  - compute_done.
  - split.
    + destruct (marshall_dict Sample.ThreadFieldset
                  (Some {["title"; "posts.body"]}) (Some {["posts"]}))
        as [p|e] eqn:Hp; [|vm_compute in Hp; discriminate].
      exists p. split; [reflexivity|]. exact (proj2 (Hdropped p Hp)).
    + apply Hsame; [reflexivity|compute_done|compute_done].
Defined.

(** ** FieldsetMeta: what an instance is made of *)

Lemma dict_set_fresh {A} (k : string) (v : A) (d : list (string * A)) :
  k ∉ d.*1 → dict_set k v d = d ++ [(k, v)].
Proof.
  induction d as [|[k' v'] d IH]; [reflexivity|]. simpl. intros Hk.
  destruct (String.eqb_spec k k') as [->|_]; [exfalso; apply Hk; left|].
  rewrite IH; [reflexivity|]. intros Hin. apply Hk. right. exact Hin.
Qed.

(** A list of pairs with distinct keys is its own dictionary. *)
Lemma dict_NoDup {A} (pairs : list (string * A)) :
  NoDup pairs.*1 → dict pairs = pairs.
Proof.
  unfold dict. change pairs with ([] ++ pairs) at 1 3.
  generalize (@nil (string * A)) as d. induction pairs as [|[k v] pairs IH];
    intros d Hnodup.
  - simpl. rewrite app_nil_r. reflexivity.
  - simpl. rewrite fmap_app in Hnodup. simpl in Hnodup.
    apply NoDup_app in Hnodup as (Hd & Hdisj & Hkp).
    rewrite dict_set_fresh by (intros Hk; apply (Hdisj k Hk); left).
    rewrite (IH (d ++ [(k, v)])).
    + rewrite <- app_assoc. reflexivity.
    + rewrite fmap_app, fmap_app. simpl. rewrite <- app_assoc. simpl.
      apply NoDup_app. split; [exact Hd|]. split; [exact Hdisj|exact Hkp].
Qed.

Lemma elem_of_names (mro : list (gmap string member)) (name : string) :
  name ∈ ⋃ (dom <$> mro) ↔ is_Some (lookup_mro mro name).
Proof.
  induction mro as [|namespace rest IH]; simpl.
  - split; [set_solver|intros [? ?]; discriminate].
  - rewrite elem_of_union, elem_of_dom, IH.
    destruct (namespace !! name) as [value|]; split; eauto.
    + intros [[? ?]|?]; [discriminate|assumption].
Qed.

Section omap_keys.
Context {A : Type} (g : string → option (string * A)).
Hypothesis g_key : ∀ name y, g name = Some y → y.1 = name.

Lemma omap_cons_eq (name : string) (l : list string) :
  omap g (name :: l) =
  match g name with
  | Some y => y :: omap g l
  | None => omap g l
  end.
Proof. reflexivity. Qed.

Lemma omap_keys (l : list string) :
  (omap g l).*1 = filter (λ name, is_Some (g name)) l.
Proof.
  induction l as [|name l IH]; [reflexivity|].
  rewrite omap_cons_eq, filter_cons.
  destruct (g name) as [y|] eqn:Hg.
  - rewrite decide_True by eauto. rewrite fmap_cons, IH, (g_key _ _ Hg).
    reflexivity.
  - rewrite decide_False by (intros [? ?]; discriminate). exact IH.
Qed.

End omap_keys.

Lemma StronglySorted_filter_str (P : string → Prop) `{!∀ x, Decision (P x)}
    (l : list string) :
  StronglySorted str_le l → StronglySorted str_le (filter P l).
Proof.
  induction 1 as [|x l Hl IH Hx]; [constructor|]. rewrite filter_cons.
  destruct (decide (P x)); [|exact IH]. constructor; [exact IH|].
  rewrite Forall_forall in Hx |- *. intros y Hy.
  apply list_elem_of_filter in Hy as [_ Hy]. auto.
Qed.


Lemma scan_eq (cls : FieldsetMeta.t) :
  FieldsetMeta.scan cls =
  omap (scan_one (FieldsetMeta.__mro__ cls)) (FieldsetMeta.dir cls).
Proof. reflexivity. Qed.

Lemma scan_one_key (mro : list (gmap string member)) (name : string)
    (y : string * field) :
  scan_one mro name = Some y →
  y.1 = name ∧ startswith_underscore name = false ∧
  lookup_mro mro name = Some (Field y.2).
Proof.
  unfold scan_one.
  destruct (startswith_underscore name); [discriminate|]. simpl.
  destruct (lookup_mro mro name) as [[f| |]|]; try discriminate.
  intros [= <-]. auto.
Qed.

Lemma elem_of_scan (cls : FieldsetMeta.t) (name : string) (f : field) :
  (name, f) ∈ FieldsetMeta.scan cls ↔
  startswith_underscore name = false ∧
  lookup_mro (FieldsetMeta.__mro__ cls) name = Some (Field f).
Proof.
  rewrite scan_eq, list_elem_of_omap. split.
  - intros [x [_ Hx]]. apply scan_one_key in Hx as (Hk & Hp & Hl).
    simpl in *. subst x. auto.
  - intros [Hp Hl]. exists name. split.
    + unfold FieldsetMeta.dir. apply sorted_spec, elem_of_names.
      rewrite Hl. eauto.
    + unfold scan_one. rewrite Hp, Hl. reflexivity.
Qed.

Lemma scan_keys (cls : FieldsetMeta.t) :
  NoDup (FieldsetMeta.scan cls).*1 ∧
  StronglySorted str_le (FieldsetMeta.scan cls).*1.
Proof.
  rewrite scan_eq, omap_keys
    by (intros name y Hy; apply (scan_one_key _ _ _ Hy)).
  unfold FieldsetMeta.dir.
  destruct (sorted_spec (⋃ (dom <$> FieldsetMeta.__mro__ cls)))
    as (Hs & Hn & _).
  split; [apply NoDup_filter, Hn|apply StronglySorted_filter_str, Hs].
Qed.

(** The instance of a class whose caches are coherent. *)
Lemma call_coherent (cls : FieldsetMeta.t) :
  FieldsetMeta.coherent cls →
  (FieldsetMeta.__call__ cls).2 =
    FieldsetMeta.instance (FieldsetMeta.scan cls) <$> FieldsetMeta.new_Meta cls.
Proof.
  intros [Hf Hm]. unfold FieldsetMeta.__call__.
  assert (match FieldsetMeta._unbound_fields cls with
          | Some fields => fields
          | None => FieldsetMeta.scan cls
          end = FieldsetMeta.scan cls) as ->.
  { destruct (FieldsetMeta._unbound_fields cls) as [fields|]; [|reflexivity].
    apply Hf. reflexivity. }
  destruct (FieldsetMeta._metadata_cls cls) as [meta|].
  - rewrite (Hm meta eq_refl). reflexivity.
  - destruct (FieldsetMeta.new_Meta cls); reflexivity.
Qed.

Lemma instance_fields_spec (cls cls' : FieldsetMeta.t)
    (_fields : list (string * field)) (meta : option Meta) :
  FieldsetMeta.coherent cls →
  FieldsetMeta.__call__ cls = (cls', Some (Fieldset _fields meta)) →
  NoDup _fields.*1 ∧ StronglySorted str_le _fields.*1 ∧
  ∀ name f, (name, f) ∈ _fields ↔
    startswith_underscore name = false ∧
    lookup_mro (FieldsetMeta.__mro__ cls) name = Some (Field f).
Proof.
  intros Hcoh Hcall. pose proof (call_coherent cls Hcoh) as Hinst.
  rewrite Hcall in Hinst. simpl in Hinst.
  destruct (FieldsetMeta.new_Meta cls) as [m|]; [|discriminate].
  destruct (scan_keys cls) as [Hnodup Hsorted].
  injection Hinst as -> ->. rewrite (dict_NoDup _ Hnodup).
  split; [exact Hnodup|]. split; [exact Hsorted|].
  intros name f. apply elem_of_scan.
Qed.

(** X15: the fields of an instance are exactly the public names that
    resolve, along the class and its bases, to a field: the nearest class
    that has a name decides, so a subclass can replace or hide an inherited
    field.  The names are distinct and in sorted order. *)
Theorem instance_fields_discovered (cls cls' : FieldsetMeta.t)
    (_fields : list (string * field)) (meta : option Meta) :
  FieldsetMeta.coherent cls →
  FieldsetMeta.__call__ cls = (cls', Some (Fieldset _fields meta)) →
  NoDup _fields.*1 ∧ StronglySorted str_le _fields.*1 ∧
  ∀ name f, (name, f) ∈ _fields ↔
    startswith_underscore name = false ∧
    lookup_mro (FieldsetMeta.__mro__ cls) name = Some (Field f).
Proof. apply instance_fields_spec. Qed.

Lemma instance_fields_discovered_witness :
  ∃ cls' _fields meta,
    FieldsetMeta.__call__ Sample.SubThing = (cls', Some (Fieldset _fields meta)) ∧
    NoDup _fields.*1 ∧ _fields.*1 = ["extra"; "id"; "owner"].
Proof.
  destruct (FieldsetMeta.__call__ Sample.SubThing) as [cls' [[_fields meta]|]]
    eqn:Hcall; [|vm_compute in Hcall; discriminate].
  destruct (instance_fields_discovered Sample.SubThing cls' _fields meta)
    as (Hnodup & _ & _).
  - split; intros ? [=].
  - exact Hcall.
  - exists cls', _fields, meta. split; [reflexivity|]. split; [exact Hnodup|].
    vm_compute in Hcall. injection Hcall as _ <- _. reflexivity.
Defined.

Lemma resolve_first {A} (get : MetaBlock → option A)
    (above below : list MetaBlock) (b : MetaBlock) (v : A) :
  Forall (λ b', get b' = None) above → get b = Some v →
  resolve get (above ++ b :: below) = Some v.
Proof.
  induction 1 as [|b' above Hb' _ IH]; simpl; intros Hb.
  - rewrite Hb. reflexivity.
  - rewrite Hb'. exact (IH Hb).
Qed.

Lemma resolve_app_Some {A} (get : MetaBlock → option A)
    (above below : list MetaBlock) :
  is_Some (resolve get below) → is_Some (resolve get (above ++ below)).
Proof.
  intros Hbelow. induction above as [|b above IH]; simpl; [exact Hbelow|].
  destruct (get b); eauto.
Qed.

Lemma as_blocks_app (l1 l2 : list member) (blocks : list MetaBlock) :
  as_blocks (l1 ++ l2) = Some blocks →
  ∃ blocks1 blocks2,
    as_blocks l1 = Some blocks1 ∧ as_blocks l2 = Some blocks2 ∧
    blocks = blocks1 ++ blocks2.
Proof.
  revert blocks. induction l1 as [|[f|b|] l1 IH]; intros blocks; simpl;
    try discriminate.
  - intros H. exists [], blocks. auto.
  - destruct (as_blocks (l1 ++ l2)) as [rest|] eqn:Hrest; [|discriminate].
    simpl. intros [= <-].
    destruct (IH rest eq_refl) as (b1 & b2 & -> & H2 & ->).
    exists (b :: b1), b2. auto.
Qed.

Lemma as_blocks_elem (l : list member) (blocks : list MetaBlock)
    (b : MetaBlock) :
  as_blocks l = Some blocks → b ∈ blocks → Block b ∈ l.
Proof.
  revert blocks. induction l as [|[f|b'|] l IH]; intros blocks; simpl;
    try discriminate.
  - intros [= <-] Hb. inversion Hb.
  - destruct (as_blocks l) as [rest|]; [|discriminate]. simpl.
    intros [= <-] Hb. apply elem_of_cons in Hb as [->|Hb]; [left|right].
    exact (IH rest eq_refl Hb).
Qed.

(** Below [Fieldset] the composition finds every option. *)
Lemma compose_below_Fieldset (cls : FieldsetMeta.t) (blocks : list MetaBlock) :
  as_blocks (FieldsetMeta.Meta_bases cls) = Some blocks →
  is_Some (compose blocks).
Proof.
  unfold FieldsetMeta.Meta_bases, FieldsetMeta.__mro__.
  rewrite app_comm_cons, omap_app.
  change (omap (λ mro_class : gmap string member, mro_class !! "Meta")
            [FieldsetMeta.Fieldset_namespace; FieldsetMeta.FieldsetBase_namespace])
    with [Block DefaultBlock].
  intros Hblocks.
  apply as_blocks_app in Hblocks as (above & last & _ & Hlast & ->).
  injection Hlast as <-.
  assert (∀ A (get : MetaBlock → option A),
            is_Some (get DefaultBlock) →
            is_Some (resolve get (above ++ [DefaultBlock]))) as Hsome.
  { intros A get [v Hv]. apply resolve_app_Some. simpl. rewrite Hv. eauto. }
  unfold compose.
  destruct (Hsome _ set_default_fields) as [df ->]; [simpl; eauto|].
  destruct (Hsome _ set_default_embedd) as [de ->]; [simpl; eauto|].
  destruct (Hsome _ set_fields_kw) as [fk ->]; [simpl; eauto|].
  destruct (Hsome _ set_embedd_kw) as [ek ->]; [simpl; eauto|].
  simpl. eauto.
Qed.

Lemma compose_options (blocks : list MetaBlock) (meta : Meta) :
  compose blocks = Some meta →
  resolve set_default_fields blocks = Some (default_fields meta) ∧
  resolve set_default_embedd blocks = Some (default_embedd meta) ∧
  resolve set_fields_kw blocks = Some (fields_kw meta) ∧
  resolve set_embedd_kw blocks = Some (embedd_kw meta).
Proof.
  unfold compose.
  destruct (resolve set_default_fields blocks); [|discriminate].
  destruct (resolve set_default_embedd blocks); [|discriminate].
  destruct (resolve set_fields_kw blocks); [|discriminate].
  destruct (resolve set_embedd_kw blocks); [|discriminate].
  simpl. intros [= <-]. auto.
Qed.

Lemma new_class_coherent (namespace : gmap string member)
    (bases : list (gmap string member)) :
  FieldsetMeta.coherent (FieldsetMeta.__init__ namespace bases).
Proof. split; intros ? [=]. Qed.

(** The Meta of the instance that a coherent class creates. *)
Lemma call_meta (cls cls' : FieldsetMeta.t) (_fields : list (string * field))
    (meta : Meta) :
  FieldsetMeta.coherent cls →
  FieldsetMeta.__call__ cls = (cls', Some (Fieldset _fields (Some meta))) →
  FieldsetMeta.new_Meta cls = Some meta.
Proof.
  intros Hcoh Hcall. pose proof (call_coherent cls Hcoh) as Hinst.
  rewrite Hcall in Hinst. simpl in Hinst.
  destruct (FieldsetMeta.new_Meta cls) as [m|]; [|discriminate].
  injection Hinst as _ ->. reflexivity.
Qed.

Lemma option_from_nearest {A} (get : MetaBlock → option A)
    (cls : FieldsetMeta.t) (blocks : list MetaBlock)
    (above below : list (gmap string member))
    (namespace : gmap string member) (b : MetaBlock) (v : A) :
  as_blocks (FieldsetMeta.Meta_bases cls) = Some blocks →
  FieldsetMeta.__mro__ cls = above ++ namespace :: below →
  Forall (leaves_out get) above →
  namespace !! "Meta" = Some (Block b) →
  get b = Some v →
  resolve get blocks = Some v.
Proof.
  unfold FieldsetMeta.Meta_bases. intros Hblocks Hmro Habove Hown Hb.
  rewrite Hmro, omap_app in Hblocks. cbn [omap list_omap] in Hblocks.
  rewrite Hown in Hblocks.
  apply as_blocks_app in Hblocks as (ba & bb & Ha & Hbb & ->).
  simpl in Hbb.
  destruct (as_blocks (omap _ below)) as [rest|]; [|discriminate].
  injection Hbb as <-. apply resolve_first; [|exact Hb].
  apply Forall_forall. intros b' Hb'.
  apply (as_blocks_elem _ _ _ Ha), list_elem_of_omap in Hb'
    as (namespace' & Hin & Hmeta).
  rewrite Forall_forall in Habove. exact (Habove namespace' Hin b' Hmeta).
Qed.

(** X16: each Meta option of an instance is the one assigned by the most
    derived class, along the class and its bases, whose [Meta] assigns it
    (an assigned [None] counts); an option that neither the class nor any
    of its bases below [Fieldset] assigns has the value that [Fieldset]'s
    own [Meta], [DefaultMeta], assigns. *)
Theorem Meta_most_derived_wins (cls cls' : FieldsetMeta.t)
    (_fields : list (string * field)) (meta : Meta) :
  FieldsetMeta.coherent cls →
  FieldsetMeta.__call__ cls = (cls', Some (Fieldset _fields (Some meta))) →
  (∀ above namespace below b,
     FieldsetMeta.__mro__ cls = above ++ namespace :: below →
     namespace !! "Meta" = Some (Block b) →
     (∀ v, Forall (leaves_out set_default_fields) above →
           set_default_fields b = Some v → default_fields meta = v) ∧
     (∀ v, Forall (leaves_out set_default_embedd) above →
           set_default_embedd b = Some v → default_embedd meta = v) ∧
     (∀ v, Forall (leaves_out set_fields_kw) above →
           set_fields_kw b = Some v → fields_kw meta = v) ∧
     (∀ v, Forall (leaves_out set_embedd_kw) above →
           set_embedd_kw b = Some v → embedd_kw meta = v)) ∧
  let own := FieldsetMeta.__dict__ cls :: FieldsetMeta.bases cls in
  (Forall (leaves_out set_default_fields) own → default_fields meta = None) ∧
  (Forall (leaves_out set_default_embedd) own → default_embedd meta = None) ∧
  (Forall (leaves_out set_fields_kw) own → fields_kw meta = "fields") ∧
  (Forall (leaves_out set_embedd_kw) own → embedd_kw meta = "embedd").
Proof.
  intros Hcoh Hcall. pose proof (call_meta _ _ _ _ Hcoh Hcall) as Hnew.
  unfold FieldsetMeta.new_Meta in Hnew.
  destruct (as_blocks (FieldsetMeta.Meta_bases cls)) as [blocks|] eqn:Hblocks;
    [|discriminate].
  simpl in Hnew. apply compose_options in Hnew as (Hdf & Hde & Hfk & Hek).
  assert (∀ A (get : MetaBlock → option A) above namespace below b v,
    FieldsetMeta.__mro__ cls = above ++ namespace :: below →
    namespace !! "Meta" = Some (Block b) →
    Forall (leaves_out get) above → get b = Some v →
    resolve get blocks = Some v) as Hnearest.
  { intros. eapply option_from_nearest; eassumption. }
  split.
  - intros above namespace below b Hmro Hown.
    repeat split; intros v Habove Hb.
    + pose proof (Hnearest _ _ _ _ _ _ _ Hmro Hown Habove Hb). congruence.
    + pose proof (Hnearest _ _ _ _ _ _ _ Hmro Hown Habove Hb). congruence.
    + pose proof (Hnearest _ _ _ _ _ _ _ Hmro Hown Habove Hb). congruence.
    + pose proof (Hnearest _ _ _ _ _ _ _ Hmro Hown Habove Hb). congruence.
  - assert (FieldsetMeta.__mro__ cls =
            (FieldsetMeta.__dict__ cls :: FieldsetMeta.bases cls)
            ++ FieldsetMeta.Fieldset_namespace
            :: [FieldsetMeta.FieldsetBase_namespace]) as Hmro by reflexivity.
    assert (FieldsetMeta.Fieldset_namespace !! "Meta"
            = Some (Block DefaultBlock)) as Hown by reflexivity.
    simpl. repeat split; intros Habove.
    + pose proof (Hnearest _ _ _ _ _ _ None Hmro Hown Habove eq_refl).
      congruence.
    + pose proof (Hnearest _ _ _ _ _ _ None Hmro Hown Habove eq_refl).
      congruence.
    + pose proof (Hnearest _ _ _ _ _ _ "fields" Hmro Hown Habove eq_refl).
      congruence.
    + pose proof (Hnearest _ _ _ _ _ _ "embedd" Hmro Hown Habove eq_refl).
      congruence.
Qed.

Lemma Meta_most_derived_wins_witness :
  ∃ cls' _fields meta,
    FieldsetMeta.__call__ Sample.SubThing
      = (cls', Some (Fieldset _fields (Some meta))) ∧
    default_fields meta = Some ["id"] ∧ fields_kw meta = "only" ∧
    embedd_kw meta = "embedd".
Proof.
  destruct (FieldsetMeta.__call__ Sample.SubThing)
    as [cls' [[_fields [meta|]]|]] eqn:Hcall;
    try (vm_compute in Hcall; discriminate).
  destruct (Meta_most_derived_wins Sample.SubThing cls' _fields meta)
    as [Hnearest (_ & _ & _ & Hdefault)];
    [apply new_class_coherent|exact Hcall|].
  exists cls', _fields, meta. split; [reflexivity|]. split; [|split].
  - refine (proj1 (Hnearest [] (FieldsetMeta.__dict__ Sample.SubThing)
                     (FieldsetMeta.bases Sample.SubThing
                      ++ [FieldsetMeta.Fieldset_namespace;
                          FieldsetMeta.FieldsetBase_namespace])
                     (mkBlock (Some (Some ["id"])) None None None)
                     eq_refl _) (Some ["id"]) _ eq_refl).
    + vm_compute. reflexivity.
    + constructor.
  - refine (proj1 (proj2 (proj2
             (Hnearest [FieldsetMeta.__dict__ Sample.SubThing]
                (FieldsetMeta.__dict__ Sample.Thing)
                [FieldsetMeta.Fieldset_namespace;
                 FieldsetMeta.FieldsetBase_namespace]
                (mkBlock None None (Some "only") None) eq_refl _)))
             "only" _ eq_refl).
    + vm_compute. reflexivity.
    + constructor; [|constructor]. intros b Hb. vm_compute in Hb.
      injection Hb as <-. reflexivity.
  - apply Hdefault. constructor; [|constructor; [|constructor]];
      intros b Hb; vm_compute in Hb; injection Hb as <-; reflexivity.
Defined.

(** ** FieldsetMeta: the caches *)




Lemma lookup_mro_insert (d : gmap string member)
    (rest : list (gmap string member)) (name x : string) (value : member) :
  lookup_mro (<[name := value]> d :: rest) x =
  if decide (name = x) then Some value else lookup_mro (d :: rest) x.
Proof.
  simpl. destruct (decide (name = x)) as [->|Hne].
  - rewrite lookup_insert_eq. reflexivity.
  - rewrite lookup_insert_ne by assumption. reflexivity.
Qed.

Lemma lookup_mro_delete_ne (d : gmap string member)
    (rest : list (gmap string member)) (name x : string) :
  name ≠ x → lookup_mro (delete name d :: rest) x = lookup_mro (d :: rest) x.
Proof. intros Hne. simpl. rewrite lookup_delete_ne by assumption. reflexivity. Qed.

Lemma not_underscore_Meta : startswith_underscore "Meta" = false.
Proof. reflexivity. Qed.

Lemma same_namespace (c1 c2 : FieldsetMeta.t) :
  FieldsetMeta.__dict__ c1 = FieldsetMeta.__dict__ c2 →
  FieldsetMeta.bases c1 = FieldsetMeta.bases c2 →
  FieldsetMeta.scan c1 = FieldsetMeta.scan c2 ∧
  FieldsetMeta.new_Meta c1 = FieldsetMeta.new_Meta c2.
Proof.
  intros Hd Hb.
  unfold FieldsetMeta.scan, FieldsetMeta.new_Meta, FieldsetMeta.Meta_bases,
    FieldsetMeta.dir, FieldsetMeta.__mro__.
  rewrite Hd, Hb. auto.
Qed.

Lemma call_namespace (cls : FieldsetMeta.t) :
  FieldsetMeta.__dict__ (FieldsetMeta.__call__ cls).1 = FieldsetMeta.__dict__ cls ∧
  FieldsetMeta.bases (FieldsetMeta.__call__ cls).1 = FieldsetMeta.bases cls.
Proof.
  unfold FieldsetMeta.__call__.
  destruct (FieldsetMeta._metadata_cls cls);
    [|destruct (FieldsetMeta.new_Meta cls)]; auto.
Qed.

Lemma call_keeps_coherent (cls : FieldsetMeta.t) :
  FieldsetMeta.coherent cls → FieldsetMeta.coherent (FieldsetMeta.__call__ cls).1.
Proof.
  intros [Hf Hm]. unfold FieldsetMeta.__call__.
  assert (match FieldsetMeta._unbound_fields cls with
          | Some fields => fields
          | None => FieldsetMeta.scan cls
          end = FieldsetMeta.scan cls) as ->.
  { destruct (FieldsetMeta._unbound_fields cls) as [fields|]; [|reflexivity].
    apply Hf. reflexivity. }
  destruct (FieldsetMeta._metadata_cls cls) as [meta|] eqn:Hmeta.
  - split; simpl; [intros ? [= <-]; reflexivity|].
    intros ? [= <-]. exact (Hm meta eq_refl).
  - destruct (FieldsetMeta.new_Meta cls) as [meta|] eqn:Hnew;
      (split; simpl; [intros ? [= <-]; reflexivity|]).
    + intros ? [= <-]. exact Hnew.
    + intros ? [=].
Qed.

(** X17: the caches do not change what is created: a class whose caches are
    coherent creates the instance that the same class with empty caches
    creates, and its caches are coherent afterwards, so that every later
    instance is the same one.  A new class is coherent. *)
Theorem caches_transparent (cls : FieldsetMeta.t) :
  FieldsetMeta.coherent cls →
  (FieldsetMeta.__call__ cls).2
    = (FieldsetMeta.__call__ (FieldsetMeta.fresh cls)).2 ∧
  FieldsetMeta.coherent (FieldsetMeta.__call__ cls).1 ∧
  (FieldsetMeta.__call__ (FieldsetMeta.__call__ cls).1).2
    = (FieldsetMeta.__call__ cls).2 ∧
  FieldsetMeta.coherent (FieldsetMeta.fresh cls).
Proof.
  intros Hcoh.
  assert (FieldsetMeta.coherent (FieldsetMeta.fresh cls)) as Hfresh
    by (split; intros ? [=]).
  pose proof (call_keeps_coherent cls Hcoh) as Hafter.
  repeat split; try apply Hafter; try apply Hfresh.
  - rewrite (call_coherent _ Hcoh), (call_coherent _ Hfresh). reflexivity.
  - rewrite (call_coherent _ Hafter), (call_coherent _ Hcoh).
    destruct (call_namespace cls) as [Hd Hb].
    destruct (same_namespace _ _ Hd Hb) as [-> ->]. reflexivity.
Qed.

Lemma caches_transparent_witness :
  (FieldsetMeta.__call__ (FieldsetMeta.__call__ Sample.Thing).1).2
  = (FieldsetMeta.__call__ Sample.Thing).2.
Proof.
  refine (proj1 (proj2 (proj2 (caches_transparent Sample.Thing _)))).
  split; intros ? [=].
Defined.





Lemma dict_set_keys {A} (k : string) (v : A) (d : list (string * A)) (x : string) :
  x ∈ (dict_set k v d).*1 ↔ x = k ∨ x ∈ d.*1.
Proof.
  induction d as [|[k' v'] d IH]; simpl.
  - rewrite list_elem_of_singleton, elem_of_nil. tauto.
  - destruct (String.eqb_spec k k') as [->|Hne]; simpl.
    + rewrite !elem_of_cons. tauto.
    + rewrite !elem_of_cons, IH. tauto.
Qed.

Lemma dict_keys {A} (pairs : list (string * A)) (x : string) :
  x ∈ (dict pairs).*1 ↔ x ∈ pairs.*1.
Proof.
  unfold dict.
  assert (∀ d : list (string * A),
    x ∈ (foldl (λ d kv, dict_set kv.1 kv.2 d) d pairs).*1 ↔
    x ∈ d.*1 ∨ x ∈ pairs.*1) as Hgen.
  { induction pairs as [|[k v] pairs IH]; intros d; simpl.
    - rewrite elem_of_nil. tauto.
    - rewrite IH, dict_set_keys, elem_of_cons. tauto. }
  rewrite Hgen. simpl. rewrite elem_of_nil. tauto.
Qed.

(** X20: a stale cache.  Once the fields have been scanned, replacing a
    field by a value that is not a field does not clear the cache: the name
    no longer resolves to a field, yet every instance created afterwards
    still declares it. *)
Theorem overwritten_field_stays (cls : FieldsetMeta.t) (name : string)
    (value : member) (fields : list (string * field)) (f : field) :
  FieldsetMeta._unbound_fields cls = Some fields →
  (name, f) ∈ fields →
  is_field value = false →
  lookup_mro (FieldsetMeta.__mro__ (FieldsetMeta.__setattr__ cls name value)) name
    = Some value ∧
  ∀ cls' inst,
    FieldsetMeta.__call__ (FieldsetMeta.__setattr__ cls name value)
      = (cls', Some inst) →
    name ∈ declared inst.
Proof.
  intros Hfields Hin Hvalue. split.
  - unfold FieldsetMeta.__setattr__, FieldsetMeta.__mro__.
    destruct (String.eqb name "Meta");
      [|destruct (negb (startswith_underscore name) && is_field value)];
      simpl; rewrite lookup_insert_eq; reflexivity.
  - intros cls' inst.
    assert (FieldsetMeta._unbound_fields (FieldsetMeta.__setattr__ cls name value)
            = Some fields) as Hkept.
    { unfold FieldsetMeta.__setattr__. rewrite Hvalue, andb_false_r.
      destruct (String.eqb name "Meta"); exact Hfields. }
    unfold FieldsetMeta.__call__. rewrite Hkept.
    assert (name ∈ (dict fields).*1) as Hname.
    { apply dict_keys, list_elem_of_fmap. exists (name, f). auto. }
    destruct (FieldsetMeta._metadata_cls _);
      [|destruct (FieldsetMeta.new_Meta _)]; intros [= _ <-]; exact Hname.
Qed.

Lemma overwritten_field_stays_witness :
  ∃ cls' inst,
    FieldsetMeta.__call__
      (FieldsetMeta.__setattr__ (FieldsetMeta.__call__ Sample.Thing).1 "name" Other)
    = (cls', Some inst) ∧ "name" ∈ declared inst.
Proof.
  destruct (FieldsetMeta.__call__
              (FieldsetMeta.__setattr__ (FieldsetMeta.__call__ Sample.Thing).1
                 "name" Other))
    as [cls' [inst|]] eqn:Hcall; [|vm_compute in Hcall; discriminate].
  exists cls', inst. split; [reflexivity|].
  refine (proj2 (overwritten_field_stays
                   (FieldsetMeta.__call__ Sample.Thing).1 "name" Other
                   (FieldsetMeta.scan Sample.Thing) Sample.Raw _ _ _)
            cls' inst Hcall).
  - reflexivity.
  - apply elem_of_scan. split; reflexivity.
  - reflexivity.
Defined.

(** X21: another stale cache.  Deleting the class's own [Meta] removes it
    from the class but does not clear the composed Meta: instances created
    afterwards still carry the options composed before. *)
Theorem deleted_Meta_stays (cls : FieldsetMeta.t) (meta : Meta) :
  FieldsetMeta._metadata_cls cls = Some meta →
  is_Some (FieldsetMeta.__dict__ cls !! "Meta") →
  (FieldsetMeta.__delattr__ cls "Meta").2 = Ok () ∧
  FieldsetMeta.__dict__ (FieldsetMeta.__delattr__ cls "Meta").1 !! "Meta" = None ∧
  ∃ _fields,
    (FieldsetMeta.__call__ (FieldsetMeta.__delattr__ cls "Meta").1).2
    = Some (Fieldset _fields (Some meta)).
Proof.
  intros Hmeta [v Hown]. unfold FieldsetMeta.__delattr__. simpl.
  rewrite Hown. simpl. split; [reflexivity|].
  split; [apply lookup_delete_eq|].
  unfold FieldsetMeta.__call__. simpl. rewrite Hmeta. simpl.
  unfold FieldsetMeta.instance. eauto.
Qed.

Lemma deleted_Meta_stays_witness :
  ∃ _fields,
    (FieldsetMeta.__call__
       (FieldsetMeta.__delattr__ (FieldsetMeta.__call__ Sample.Thing).1 "Meta").1).2
    = Some (Fieldset _fields (Some (mkMeta None None "only" "embedd"))).
Proof.
  refine (proj2 (proj2 (deleted_Meta_stays
                          (FieldsetMeta.__call__ Sample.Thing).1
                          (mkMeta None None "only" "embedd") _ _))).
  - reflexivity.
  - vm_compute. eauto.
Defined.

(** X22: assigning a new [Meta] does take effect: the composed Meta is
    cleared, and the options that the new block assigns are those of every
    instance created afterwards. *)
Theorem setattr_Meta_applies (cls cls' : FieldsetMeta.t) (b : MetaBlock)
    (_fields : list (string * field)) (meta : Meta) :
  FieldsetMeta.__call__ (FieldsetMeta.__setattr__ cls "Meta" (Block b))
    = (cls', Some (Fieldset _fields (Some meta))) →
  (∀ v, set_default_fields b = Some v → default_fields meta = v) ∧
  (∀ v, set_default_embedd b = Some v → default_embedd meta = v) ∧
  (∀ v, set_fields_kw b = Some v → fields_kw meta = v) ∧
  (∀ v, set_embedd_kw b = Some v → embedd_kw meta = v).
Proof.
  unfold FieldsetMeta.__call__, FieldsetMeta.__setattr__. simpl.
  unfold FieldsetMeta.new_Meta, FieldsetMeta.Meta_bases, FieldsetMeta.__mro__.
  simpl. rewrite lookup_insert_eq. simpl.
  destruct (as_blocks _) as [blocks|]; simpl; [|discriminate].
  destruct (compose (b :: blocks)) as [m|] eqn:Hcompose; [|discriminate].
  intros [= _ _ <-].
  apply compose_options in Hcompose as (Hdf & Hde & Hfk & Hek).
  simpl in Hdf, Hde, Hfk, Hek.
  repeat split; intros v Hv; rewrite Hv in *; congruence.
Qed.

Lemma setattr_Meta_applies_witness :
  ∃ cls' _fields meta,
    FieldsetMeta.__call__
      (FieldsetMeta.__setattr__ (FieldsetMeta.__call__ Sample.Thing).1
         "Meta" (Block (mkBlock None None (Some "q") None)))
    = (cls', Some (Fieldset _fields (Some meta))) ∧
    fields_kw meta = "q".
Proof.
  destruct (FieldsetMeta.__call__
              (FieldsetMeta.__setattr__ (FieldsetMeta.__call__ Sample.Thing).1
                 "Meta" (Block (mkBlock None None (Some "q") None))))
    as [cls' [[_fields [meta|]]|]] eqn:Hcall;
    try (vm_compute in Hcall; discriminate).
  exists cls', _fields, meta. split; [reflexivity|].
  exact (proj1 (proj2 (proj2 (setattr_Meta_applies _ _ _ _ _ Hcall)))
           "q" eq_refl).
Defined.

(** ** Defaults all the way down, and the key field *)




(** X24: the key field of a nested declaration with plain key [k] formats a
    nested object to its member [k], through the plain-key formatter when
    there is one, and to null when the object lacks [k]; it carries the
    declaration's default and attribute, the same that the embedded entry
    is built with. *)
Theorem key_field_reads_plain_key (nested : option fieldset) (k : string)
    (default : pyval) (attribute : option string) (allow_none : bool)
    (plain_field : option formatter) (value : pyval) (child : plan) :
  let declaration :=
    OptionalNestedField nested (Some k) default attribute allow_none
      plain_field in
  ∃ key,
    key_field declaration = Ok (Some (ObjectMember key)) ∧
    ObjectMemberField.format key value =
      match getattr value k with
      | None => Ok VNone
      | Some plain =>
          match plain_field with
          | None => Ok plain
          | Some plain_formatter => plain_formatter plain
          end
      end ∧
    Nested child <$> nested_kwargs declaration
      = Ok (fields_Nested child allow_none default attribute) ∧
    field_attribute (ObjectMember key) = attribute ∧
    ObjectMemberField.default key = default.
Proof.
  intros declaration. eexists. split; [reflexivity|].
  split; [|repeat split].
  unfold ObjectMemberField.format, hasattr. simpl.
  destruct (getattr value k) as [plain|].
  - rewrite bool_decide_eq_true_2 by eauto. reflexivity.
  - rewrite bool_decide_eq_false_2 by (intros [? ?]; discriminate). reflexivity.
Qed.
